(** * bishvilam: the map viewer of [src/App.tsx], embedded and verified

    The development follows the single component [App]: the JavaScript
    values and built-ins the component calls (numbers, strings,
    [parseFloat], [String.prototype.trim], [split], the regular expression
    of [searchPlaces]), then the component state and its handlers, then the
    theorems about them. *)

From Stdlib Require Import ZArith Lia Floats.SpecFloat Strings.Ascii Strings.String.
From stdpp Require Import base gmap strings list pretty.

Open Scope Z_scope.

(** ** JavaScript numbers

    A JS [number] is an IEEE 754 binary64 value: [spec_float] at precision
    53 and maximal exponent 1024.  There is a single NaN. *)

Module JS.

Definition number : Type := spec_float.

Definition prec : Z := 53.
Definition emax : Z := 1024.

Definition NaN : number := S754_nan.

(** [Number::lessThan(x, y)]: [None] is the result [undefined], produced
    when either operand is NaN. *)
Definition lessThan (x y : number) : option bool :=
  match SFcompare x y with
  | None => None
  | Some Lt => Some true
  | Some _ => Some false
  end.

(** [x >= y] is [IsLessThan(x, y)] with [true] and [undefined] mapped to
    [false]; [x <= y] is the same test on [IsLessThan(y, x)]. *)
Definition ge (x y : number) : bool :=
  match lessThan x y with
  | Some false => true
  | _ => false
  end.

Definition le (x y : number) : bool :=
  match lessThan y x with
  | Some false => true
  | _ => false
  end.

(** The global [isNaN] applied to a value that is a number or [undefined]
    ([None]): [ToNumber(undefined)] is NaN. *)
Definition isNaN (v : option number) : bool :=
  match v with
  | Some S754_nan | None => true
  | Some _ => false
  end.

(** ** Strings: code units, white space, [trim], [split] *)

(** Strings are sequences of code units; the model covers the code units
    below 256. [isWhiteSpace] is the union of WhiteSpace and LineTerminator
    in that range: TAB, LF, VT, FF, CR, SP and NBSP.  It is the set both
    [trim] and the regular-expression class [\s] use. *)
Definition isWhiteSpace (c : ascii) : bool :=
  match N_of_ascii c with
  | 9 | 10 | 11 | 12 | 13 | 32 | 160 => true
  | _ => false
  end%N.

(** The class [\d]: the ten ASCII digits. *)
Definition isDigit (c : ascii) : bool :=
  ((48 <=? N_of_ascii c) && (N_of_ascii c <=? 57))%N.

Arguments isWhiteSpace : simpl never.
Arguments isDigit : simpl never.

Fixpoint trimStart_chars (s : list ascii) : list ascii :=
  match s with
  | c :: s' => if isWhiteSpace c then trimStart_chars s' else s
  | [] => []
  end.

Definition trimEnd_chars (s : list ascii) : list ascii :=
  rev (trimStart_chars (rev s)).

Definition trim_chars (s : list ascii) : list ascii :=
  trimEnd_chars (trimStart_chars s).

(** [s.split(sep)] for a one-character separator: every occurrence splits,
    and the result always has at least one piece. *)
Fixpoint split_chars (sep : ascii) (s : list ascii) : list (list ascii) :=
  match s with
  | [] => [[]]
  | c :: s' =>
      if Ascii.eqb c sep then [] :: split_chars sep s'
      else match split_chars sep s' with
           | p :: ps => (c :: p) :: ps
           | [] => [[c]]
           end
  end.

Definition trim (s : string) : string :=
  string_of_list_ascii (trim_chars (list_ascii_of_string s)).

Definition split (sep : ascii) (s : string) : list string :=
  string_of_list_ascii <$> split_chars sep (list_ascii_of_string s).

(** ** Decimal literals and their Number value *)

(** The mathematical value [m * 10 ^ e] rounded to the nearest binary64,
    ties to even ([RoundMVResult]); [m] is not negative. *)
Definition roundDecimal (neg : bool) (m e : Z) : number :=
  match m with
  | Zpos p =>
      if 0 <=? e then binary_round prec emax neg (Z.to_pos (m * 10 ^ e)) 0
      else
        let '(q, e', l) := SFdiv_core_binary prec emax m 0 (10 ^ (- e)) 0 in
        binary_round_aux prec emax neg q e' l
  | _ => S754_zero neg
  end.

Definition digitValue (c : ascii) : Z := Z.of_N (N_of_ascii c) - 48.

(** The value of a sequence of decimal digits. *)
Definition digitsValue (ds : list ascii) : Z :=
  fold_left (fun acc c => 10 * acc + digitValue c) ds 0.

(** The longest prefix of digits, and what follows it. *)
Fixpoint spanDigits (s : list ascii) : list ascii * list ascii :=
  match s with
  | c :: s' =>
      if isDigit c then let '(ds, r) := spanDigits s' in (c :: ds, r)
      else ([], s)
  | [] => ([], [])
  end.

Definition scanSign (s : list ascii) : bool * list ascii :=
  match s with
  | c :: r =>
      if Ascii.eqb c "-" then (true, r)
      else if Ascii.eqb c "+" then (false, r)
      else (false, s)
  | [] => (false, s)
  end.

(** ExponentPart_opt: the exponent of the longest prefix [e|E] [+|-]
    digits, or 0 when there is none. *)
Definition scanExponent (s : list ascii) : Z :=
  match s with
  | c :: r =>
      if Ascii.eqb c "e" || Ascii.eqb c "E" then
        let '(neg, r') := scanSign r in
        match spanDigits r' with
        | ([], _) => 0
        | (ds, _) => if neg then - digitsValue ds else digitsValue ds
        end
      else 0
  | [] => 0
  end.

Definition isPrefix (p s : list ascii) : bool :=
  bool_decide (take (length p) s = p).

(** The digits after a [.], when [r] starts with one, and what follows
    them. *)
Definition spanFraction (r : list ascii) : list ascii * list ascii :=
  match r with
  | c :: r' => if Ascii.eqb c "." then spanDigits r' else ([], r)
  | [] => ([], r)
  end.

(** [parseFloat] on code units: skip leading white space, take the longest
    prefix that is a StrDecimalLiteral (a sign if any, then [Infinity], or
    digits with an optional fraction and exponent, at least one digit
    before the exponent), return its Number value; NaN when no prefix is
    one. *)
Definition parseFloat_chars (s : list ascii) : number :=
  let '(neg, u) := scanSign (trimStart_chars s) in
  if isPrefix (list_ascii_of_string "Infinity") u then S754_infinity neg
  else
    let '(ip, r) := spanDigits u in
    let '(fp, r') := spanFraction r in
    match ip ++ fp with
    | [] => NaN
    | ds =>
        roundDecimal neg (digitsValue ds) (scanExponent r' - Z.of_nat (length fp))
    end.

Definition parseFloat (s : string) : number :=
  parseFloat_chars (list_ascii_of_string s).

#[global] Instance spec_float_eq_dec : EqDecision spec_float.
Proof. solve_decision. Defined.

(** ** [Number::toString] in radix 10 *)

(** A positive finite number is the rational [num / den]. *)
Definition numerator (m : positive) (e : Z) : Z :=
  if 0 <=? e then Zpos m * 2 ^ e else Zpos m.
Definition denominator (e : Z) : Z :=
  if 0 <=? e then 1 else 2 ^ (- e).

(** [num / den < 10 ^ n]. *)
Definition belowPow10 (num den n : Z) : bool :=
  if 0 <=? n then num <? 10 ^ n * den else num * 10 ^ (- n) <? den.

(** The least [n] from [start] on with [num / den < 10 ^ n]. *)
Fixpoint decimalExponent (fuel : nat) (num den n : Z) : Z :=
  match fuel with
  | O => n
  | S fuel' =>
      if belowPow10 num den n then n
      else decimalExponent fuel' num den (n + 1)
  end.

(** [floor (num / den * 10 ^ p)]. *)
Definition scaledFloor (num den p : Z) : Z :=
  if 0 <=? p then (num * 10 ^ p) / den else num / (den * 10 ^ (- p)).

(** Twice the distance between [s * 10 ^ (- p)] and [num / den], scaled
    by a common positive factor, for comparing two candidates. *)
Definition distance (num den p s : Z) : Z :=
  if 0 <=? p then Z.abs (s * den - num * 10 ^ p)
  else Z.abs (s * den * 10 ^ (- p) - num).

(** The digits [s] with [k] digits for which [s * 10 ^ (n - k)] is [x],
    the closest to [x] when both neighbours qualify. *)
Definition digitsOfLength (x : number) (num den n k : Z) : option Z :=
  let p := k - n in
  let lo := scaledFloor num den p in
  let hi := lo + 1 in
  let ok s := bool_decide (roundDecimal false s (- p) = x) in
  match ok lo, ok hi with
  | true, true =>
      if distance num den p lo <? distance num den p hi then Some lo
      else if distance num den p hi <? distance num den p lo then Some hi
      else Some (if Z.even lo then lo else hi)
  | true, false => Some lo
  | false, true => Some hi
  | false, false => None
  end.

(** The shortest digits: the least [k] from [k] on that has some. *)
Fixpoint shortestDigits (fuel : nat) (x : number) (num den n k : Z) : Z * Z :=
  match fuel with
  | O => (scaledFloor num den (k - n), k)
  | S fuel' =>
      match digitsOfLength x num den n k with
      | Some s => (s, k)
      | None => shortestDigits fuel' x num den n (k + 1)
      end
  end.

Definition zeros (n : Z) : string :=
  string_of_list_ascii (replicate (Z.to_nat n) "0"%char).

Definition takeString (n : Z) (s : string) : string :=
  string_of_list_ascii (take (Z.to_nat n) (list_ascii_of_string s)).
Definition dropString (n : Z) (s : string) : string :=
  string_of_list_ascii (drop (Z.to_nat n) (list_ascii_of_string s)).

(** Steps 6 to 10 of Number::toString: the layout of the digits [s] ([k]
    of them) with decimal exponent [n]. *)
Definition layout (s k n : Z) : string :=
  let ds := pretty (Z.to_N s) in
  if (k <=? n) && (n <=? 21) then ds +:+ zeros (n - k)
  else if (0 <? n) && (n <=? 21) then takeString n ds +:+ "." +:+ dropString n ds
  else if (-6 <? n) && (n <=? 0) then "0." +:+ zeros (- n) +:+ ds
  else
    let e := n - 1 in
    let es := (if e <? 0 then "-" else "+") +:+ pretty (Z.to_N (Z.abs e)) in
    if k =? 1 then ds +:+ "e" +:+ es
    else takeString 1 ds +:+ "." +:+ dropString 1 ds +:+ "e" +:+ es.

Definition toStringPositive (m : positive) (e : Z) : string :=
  let x := S754_finite false m e in
  let num := numerator m e in
  let den := denominator e in
  let b := Zpos (digits2_pos m) + e in
  let n := decimalExponent 10 num den ((b - 1) * 30102 / 100000 - 1) in
  let '(s, k) := shortestDigits 17 x num den n 1 in
  (* [s = 10 ^ k] stands for the digit 1 one decimal place up *)
  if s =? 10 ^ k then layout 1 1 (n + 1) else layout s k n.

Definition Number_toString (x : number) : string :=
  match x with
  | S754_nan => "NaN"
  | S754_zero _ => "0"
  | S754_infinity neg => if neg then "-Infinity" else "Infinity"
  | S754_finite neg m e =>
      (if neg then "-" else "") +:+ toStringPositive m e
  end.

(** The Number value of an integer literal. *)
Definition ofZ (z : Z) : number := roundDecimal (z <? 0) (Z.abs z) 0.

(** ** Regular expressions

    The fragment the component uses: characters, classes, sequence,
    alternation and repetition.  A pattern written between [^] and [$]
    (no flags) matches a string when the whole string belongs to its
    language, which the derivatives decide. *)

Inductive regex : Type :=
  | Void
  | Eps
  | Chr (c : ascii)
  | Class (p : ascii -> bool)
  | Seq (r1 r2 : regex)
  | Alt (r1 r2 : regex)
  | Star (r : regex).

(** [r?] and [r+]. *)
Definition Opt (r : regex) : regex := Alt r Eps.
Definition Plus (r : regex) : regex := Seq r (Star r).

Fixpoint nullable (r : regex) : bool :=
  match r with
  | Void => false
  | Eps => true
  | Chr _ => false
  | Class _ => false
  | Seq r1 r2 => nullable r1 && nullable r2
  | Alt r1 r2 => nullable r1 || nullable r2
  | Star _ => true
  end.

Fixpoint derive (c : ascii) (r : regex) : regex :=
  match r with
  | Void => Void
  | Eps => Void
  | Chr d => if Ascii.eqb c d then Eps else Void
  | Class p => if p c then Eps else Void
  | Seq r1 r2 =>
      if nullable r1 then Alt (Seq (derive c r1) r2) (derive c r2)
      else Seq (derive c r1) r2
  | Alt r1 r2 => Alt (derive c r1) (derive c r2)
  | Star r1 => Seq (derive c r1) (Star r1)
  end.

Fixpoint matches_chars (r : regex) (s : list ascii) : bool :=
  match s with
  | [] => nullable r
  | c :: s' => matches_chars (derive c r) s'
  end.

(** [s.match(/^r$/)] is not [null]. *)
Definition matches (r : regex) (s : string) : bool :=
  matches_chars r (list_ascii_of_string s).

End JS.

(** ** The data of the component *)

Module SavedCoord.
Record t : Type := mk
  { id : string;
    lat : JS.number;
    lon : JS.number;
    name : option string;
    description : option string }.
End SavedCoord.

Module LocationData.
Record t : Type := mk
  { name : string;
    lat : JS.number;
    lon : JS.number;
    description : string }.
End LocationData.

(** The object literal [newBbox] of [handleMapViewChange]. *)
Module Bbox.
Record t : Type := mk
  { minLon : JS.number;
    minLat : JS.number;
    maxLon : JS.number;
    maxLat : JS.number }.
End Bbox.

Module Place.
Record t : Type := mk
  { display_name : string;
    lat : string;
    lon : string }.
End Place.

(** ** The state of [App]: one field per [useState] *)

Record AppState : Type := mkAppState
  { coords : string;
    lat : option JS.number;
    lon : option JS.number;
    suggestions : list Place.t;
    showSuggestions : bool;
    selectedIndex : Z;
    savedCoords : list SavedCoord.t }.

Definition setCoords (v : string) (st : AppState) : AppState :=
  mkAppState v (lat st) (lon st) (suggestions st) (showSuggestions st)
    (selectedIndex st) (savedCoords st).
Definition setLat (v : option JS.number) (st : AppState) : AppState :=
  mkAppState (coords st) v (lon st) (suggestions st) (showSuggestions st)
    (selectedIndex st) (savedCoords st).
Definition setLon (v : option JS.number) (st : AppState) : AppState :=
  mkAppState (coords st) (lat st) v (suggestions st) (showSuggestions st)
    (selectedIndex st) (savedCoords st).
Definition setSuggestions (v : list Place.t) (st : AppState) : AppState :=
  mkAppState (coords st) (lat st) (lon st) v (showSuggestions st)
    (selectedIndex st) (savedCoords st).
Definition setShowSuggestions (v : bool) (st : AppState) : AppState :=
  mkAppState (coords st) (lat st) (lon st) (suggestions st) v
    (selectedIndex st) (savedCoords st).
Definition setSelectedIndex (v : Z) (st : AppState) : AppState :=
  mkAppState (coords st) (lat st) (lon st) (suggestions st)
    (showSuggestions st) v (savedCoords st).
(** [setSavedCoords] is always called with an updater [prev => ...]. *)
Definition setSavedCoords (f : list SavedCoord.t -> list SavedCoord.t)
    (st : AppState) : AppState :=
  mkAppState (coords st) (lat st) (lon st) (suggestions st)
    (showSuggestions st) (selectedIndex st) (f (savedCoords st)).

(** What a handler does besides updating the state.  Console output is
    recorded by its leading text. *)
Inductive Url : Type :=
  | locations_json
  | nominatim_search (q : string) (limit : Z).

Inductive Effect : Type :=
  | alert (msg : string)
  | console_error (msg : string)
  | console_log (msg : string)
  | fetch (url : Url).

(** How an awaited [fetch(...)] followed by [response.json()] ends. *)
Inductive Fetched (A : Type) : Type :=
  | fetch_rejected
  | response_not_ok (statusText : string)
  | json_rejected
  | json_ok (data : A).
Arguments fetch_rejected {A}.
Arguments response_not_ok {A} statusText.
Arguments json_rejected {A}.
Arguments json_ok {A} data.

Notation "st |> f" := (f st) (at level 45, left associativity, only parsing).

(** The initial state: [savedCoords] is read from local storage
    (lines 33-41); [stored] is the item, [parse] its [JSON.parse]. *)
Definition initialSavedCoords (stored : option string)
    (parse : string -> option (list SavedCoord.t))
  : list SavedCoord.t * list Effect :=
  match stored with
  | Some saved =>
      if bool_decide (saved = "") then ([], [])
      else match parse saved with
           | Some l => (l, [])
           | None => ([], [console_error "Error parsing savedCoords from localStorage:"])
           end
  | None => ([], [])
  end.

Definition initialState (saved : list SavedCoord.t) : AppState :=
  mkAppState "" None None [] false (-1) saved.

(** ** Bundled locations: [loadLocations] (lines 51-81) *)

(** The request [loadLocations] starts with (line 53). *)
Definition loadLocations_request : Effect := fetch locations_json.

(** Lines 63-69: one record of [locations.json] as a [SavedCoord]. *)
Definition toSavedCoord (location : LocationData.t) : SavedCoord.t :=
  SavedCoord.mk
    ("location-" +:+ JS.Number_toString (LocationData.lon location) +:+ "-"
       +:+ JS.Number_toString (LocationData.lat location))
    (LocationData.lon location)
    (LocationData.lat location)
    (Some (LocationData.name location))
    (Some (LocationData.description location)).

(** Lines 72-77: the updater given to [setSavedCoords]. *)
Definition addLocations (newCoords prev : list SavedCoord.t)
  : list SavedCoord.t :=
  let existingIds : gset string := list_to_set (SavedCoord.id <$> prev) in
  let toAdd := filter (fun coord => SavedCoord.id coord ∉ existingIds) newCoords in
  prev ++ toAdd.

Definition loadLocations (response : Fetched (list LocationData.t))
    (st : AppState) : AppState * list Effect :=
  match response with
  | fetch_rejected | json_rejected =>
      (st, [console_error "Error loading locations:"])
  | response_not_ok statusText =>
      (st, [console_error ("Failed to fetch locations.json: " +:+ statusText)])
  | json_ok locations =>
      let newCoords := toSavedCoord <$> locations in
      (st |> setSavedCoords (addLocations newCoords),
       [console_log "Loaded locations from JSON:";
        console_log "Adding new locations"])
  end.

(** ** Place search: [searchPlaces] (lines 92-124) *)

(** [-?\d+\.?\d*], the shape of one number. *)
Definition numberShape : JS.regex :=
  JS.Seq (JS.Opt (JS.Chr "-"))
    (JS.Seq (JS.Plus (JS.Class JS.isDigit))
       (JS.Seq (JS.Opt (JS.Chr ".")) (JS.Star (JS.Class JS.isDigit)))).

(** [/^-?\d+\.?\d*,\s*-?\d+\.?\d*$/] (line 99). *)
Definition coordShape : JS.regex :=
  JS.Seq numberShape
    (JS.Seq (JS.Chr ",")
       (JS.Seq (JS.Star (JS.Class JS.isWhiteSpace)) numberShape)).

(** The body of [searchPlaces] up to the [await]. *)
Definition searchPlaces (st : AppState) : AppState * list Effect :=
  if (String.length (JS.trim (coords st)) <? 3)%nat then
    (st |> setSuggestions [], [])
  else
    let coordMatch := JS.matches coordShape (coords st) in
    if coordMatch then (st |> setSuggestions [], [])
    else (st, [fetch (nominatim_search (coords st) 5)]).

(** The rest of [searchPlaces], once the request has ended: [Some data]
    when [response.json()] gave [data], [None] when [fetch] or
    [response.json()] threw.  There is no [response.ok] test on this
    path. *)
Definition searchPlaces_resume (response : option (list Place.t))
    (st : AppState) : AppState * list Effect :=
  match response with
  | Some data =>
      (st |> setSuggestions data |> setShowSuggestions true
          |> setSelectedIndex (-1), [])
  | None =>
      (st |> setSuggestions [], [console_error "Error fetching suggestions:"])
  end.

(** ** The handlers (lines 130-172) *)

Definition invalidCoordinates : string :=
  "Please enter valid coordinates: lat, lon or select a place".

Definition handleShow (st : AppState) : AppState * list Effect :=
  let parts :=
    (fun v => JS.parseFloat (JS.trim v)) <$> JS.split "," (coords st) in
  let latitude := parts !! 0%nat in
  let longitude := parts !! 1%nat in
  if negb (JS.isNaN latitude) && negb (JS.isNaN longitude) then
    (st |> setLat latitude |> setLon longitude |> setShowSuggestions false, [])
  else
    (st, [alert invalidCoordinates]).

(** The Coordinate Parser: what [handleShow] computes from the input
    before it decides (lines 131-135); [None] is InvalidInput. *)
Definition coordinateParser (input : string)
  : option (JS.number * JS.number) :=
  let parts :=
    (fun v => JS.parseFloat (JS.trim v)) <$> JS.split "," input in
  match parts !! 0%nat, parts !! 1%nat with
  | Some latitude, Some longitude =>
      if negb (JS.isNaN (Some latitude)) && negb (JS.isNaN (Some longitude))
      then Some (latitude, longitude)
      else None
  | _, _ => None
  end.

Definition handleSelectPlace (place : Place.t) (st : AppState) : AppState :=
  st |> setCoords (Place.display_name place)
     |> setLat (Some (JS.parseFloat (Place.lat place)))
     |> setLon (Some (JS.parseFloat (Place.lon place)))
     |> setShowSuggestions false
     |> setSuggestions [].

(** [now] is the value [Date.now()] returns at the call. *)
Definition handleSaveCoord (now : JS.number) (st : AppState) : AppState :=
  match lat st, lon st with
  | Some lat, Some lon =>
      let newCoord :=
        SavedCoord.mk (JS.Number_toString now) lat lon
          (Some (if bool_decide (coords st = "")
                 then JS.Number_toString lat +:+ ", " +:+ JS.Number_toString lon
                 else coords st))
          None in
      st |> setSavedCoords (fun prev => prev ++ [newCoord])
  | _, _ => st
  end.

Definition handleDeleteCoord (id : string) (st : AppState) : AppState :=
  st |> setSavedCoords
          (fun prev => filter (fun coord => SavedCoord.id coord ≠ id) prev).

Definition handleNavigateToCoord (coord : SavedCoord.t) (st : AppState)
  : AppState :=
  let name :=
    match SavedCoord.name coord with
    | Some n => if bool_decide (n = "") then None else Some n
    | None => None
    end in
  st |> setLat (Some (SavedCoord.lat coord))
     |> setLon (Some (SavedCoord.lon coord))
     |> setCoords
          (match name with
           | Some n => n
           | None => JS.Number_toString (SavedCoord.lat coord) +:+ ", "
                       +:+ JS.Number_toString (SavedCoord.lon coord)
           end).

(** ** The viewport filter of [handleMapViewChange] (lines 194-200) *)

Definition visibleCoords (newBbox : Bbox.t) (savedCoords : list SavedCoord.t)
  : list SavedCoord.t :=
  List.filter
    (fun coord =>
       JS.ge (SavedCoord.lat coord) (Bbox.minLat newBbox) &&
       JS.le (SavedCoord.lat coord) (Bbox.maxLat newBbox) &&
       JS.ge (SavedCoord.lon coord) (Bbox.minLon newBbox) &&
       JS.le (SavedCoord.lon coord) (Bbox.maxLon newBbox))
    savedCoords.

(** The mathematical reading of the viewport test, on the IEEE order. *)
Definition within (b : Bbox.t) (p : SavedCoord.t) : Prop :=
  SFleb (Bbox.minLat b) (SavedCoord.lat p) = true /\
  SFleb (SavedCoord.lat p) (Bbox.maxLat b) = true /\
  SFleb (Bbox.minLon b) (SavedCoord.lon p) = true /\
  SFleb (SavedCoord.lon p) (Bbox.maxLon b) = true.

#[local] Instance within_dec b p : Decision (within b p).
Proof. unfold within. apply _. Defined.

(** ** The render surface (lines 45-47, 175-292)

    The refs of the component and what Leaflet holds for them.  A map
    object is known by its handle: the number of [L.map] calls made before
    the one that built it. *)

Module Surface.
Record t : Type := mk
  { mapRef : option nat;
    (** the center last given to the map of [mapRef] *)
    center : option (JS.number * JS.number);
    (** the saved points that have a circle marker on the map *)
    markersRef : list SavedCoord.t;
    (** the position of the current-location marker *)
    currentLocationMarkerRef : option (JS.number * JS.number);
    (** how many maps [L.map] has built *)
    created : nat;
    (** the maps [remove()] was called on, oldest first *)
    removed : list nat }.

Definition empty : t := mk None None [] None 0 [].
End Surface.

(** [handleMapViewChange] (lines 175-225); [bounds] is what
    [mapRef.current.getBounds()] returns at the call. *)
Definition handleMapViewChange (savedCoords : list SavedCoord.t)
    (bounds : Bbox.t) (sf : Surface.t) : Surface.t :=
  match Surface.mapRef sf with
  | None => sf
  | Some _ =>
      let newBbox :=
        Bbox.mk (Bbox.minLon bounds) (Bbox.minLat bounds)
          (Bbox.maxLon bounds) (Bbox.maxLat bounds) in
      Surface.mk (Surface.mapRef sf) (Surface.center sf)
        (visibleCoords newBbox savedCoords)
        (Surface.currentLocationMarkerRef sf)
        (Surface.created sf) (Surface.removed sf)
  end.

(** A position on the globe: a latitude from -90 to 90 and a longitude
    from -180 to 180, which leaves out [NaN] and the infinities. *)
Definition geographic (lat lon : JS.number) : Prop :=
  SFleb (JS.ofZ (-90)) lat = true /\ SFleb lat (JS.ofZ 90) = true /\
  SFleb (JS.ofZ (-180)) lon = true /\ SFleb lon (JS.ofZ 180) = true.

(** The focus location of [st], if it has one, is a position on the
    globe. *)
Definition drawable (st : AppState) : Prop :=
  forall la lo, lat st = Some la -> lon st = Some lo -> geographic la lo.

(** The body of the map effect (lines 229-251).  The container [div] is
    rendered exactly when [lat] and [lon] are not [null] (line 442), so
    [mapContainerRef.current] is set exactly then.  The deferred call of
    [handleMapViewChange] only redraws the markers and is left out.

    This is the body when [L.map] and [L.tileLayer(...).addTo(map)]
    return, as they do at a [geographic] center.  They do not return at
    every center the component can hold: [L.map] throws on [NaN], which
    [handleSelectPlace] stores when a place has no number for a
    coordinate, and [addTo] throws at an infinite center, which
    [handleShow] stores for the input [1,1e400].  The effect then ends
    before line 247: [mapRef.current] stays [null], the map just built is
    never removed, and React unmounts the component.  [initMap] does not
    describe such a render.  Every statement below about a map built at
    an arbitrary focus location therefore assumes [geographic], and
    [surface_reachable] follows the component through renders at such a
    focus location only. *)
Definition initMap (st : AppState) (sf : Surface.t) : Surface.t :=
  match Surface.mapRef sf, lat st, lon st with
  | None, Some lat, Some lon =>
      Surface.mk (Some (Surface.created sf)) (Some (lat, lon))
        (Surface.markersRef sf) (Surface.currentLocationMarkerRef sf)
        (S (Surface.created sf)) (Surface.removed sf)
  | _, _, _ => sf
  end.

(** The cleanup the map effect returns (lines 253-260). *)
Definition initMap_cleanup (sf : Surface.t) : Surface.t :=
  match Surface.mapRef sf with
  | Some map =>
      Surface.mk None None [] None (Surface.created sf)
        (Surface.removed sf ++ [map])
  | None => sf
  end.

(** The effect that recenters the map (lines 264-285). *)
Definition updateCenter (st : AppState) (bounds : Bbox.t) (sf : Surface.t)
  : Surface.t :=
  match Surface.mapRef sf, lat st, lon st with
  | Some _, Some lat, Some lon =>
      handleMapViewChange (savedCoords st) bounds
        (Surface.mk (Surface.mapRef sf) (Some (lat, lon))
           (Surface.markersRef sf) (Some (lat, lon))
           (Surface.created sf) (Surface.removed sf))
  | _, _, _ => sf
  end.

(** The effect that redraws the markers (lines 288-292). *)
Definition updateMarkers (st : AppState) (bounds : Bbox.t) (sf : Surface.t)
  : Surface.t :=
  match Surface.mapRef sf with
  | Some _ => handleMapViewChange (savedCoords st) bounds sf
  | None => sf
  end.

(** React's treatment of the three effects.  After the first render every
    body runs.  After a later render, an effect one of whose dependencies
    changed ([Object.is]) has its cleanup run, then, once all cleanups
    are done, its body, in the order of declaration.  [handleMapViewChange]
    is rebuilt by [useCallback] when [savedCoords] is a new array, which
    is what [fresh] says (every [setSavedCoords] builds one). *)
Definition mount (st : AppState) (bounds : Bbox.t) (sf : Surface.t)
  : Surface.t :=
  sf |> initMap st |> updateCenter st bounds |> updateMarkers st bounds.

Definition commit (prev st : AppState) (fresh : bool) (bounds : Bbox.t)
    (sf : Surface.t) : Surface.t :=
  let moved :=
    bool_decide (lat prev ≠ lat st) || bool_decide (lon prev ≠ lon st) || fresh in
  let sf := if moved then initMap_cleanup sf else sf in
  let sf := if moved then initMap st sf else sf in
  let sf := if moved then updateCenter st bounds sf else sf in
  if fresh then updateMarkers st bounds sf else sf.

(** Component teardown: the only cleanup that touches the surface. *)
Definition unmount (sf : Surface.t) : Surface.t := initMap_cleanup sf.

(** The lifecycle of the render surface, read off the refs. *)
Inductive Lifecycle : Type :=
  | Uninitialized
  | Active (map : nat)
  | Destroyed.

Definition lifecycle (sf : Surface.t) : Lifecycle :=
  match Surface.mapRef sf with
  | Some map => Active map
  | None => if bool_decide (Surface.created sf = 0%nat) then Uninitialized
            else Destroyed
  end.

(** ** The collection over time *)

Definition ids (l : list SavedCoord.t) : list string := SavedCoord.id <$> l.

(** One user or network event, as a step on the state. *)
Inductive step : AppState -> AppState -> Prop :=
  | step_type v st : step st (setCoords v st)
  | step_show st : step st (handleShow st).1
  | step_select place st : step st (handleSelectPlace place st)
  | step_navigate coord st : step st (handleNavigateToCoord coord st)
  | step_search st : step st (searchPlaces st).1
  | step_search_resume response st : step st (searchPlaces_resume response st).1
  | step_load response st : step st (loadLocations response st).1
  | step_save now st : step st (handleSaveCoord now st)
  | step_delete id st : step st (handleDeleteCoord id st).

(** The states the component can be in. *)
Inductive reachable : AppState -> Prop :=
  | reachable_initial stored parse :
      reachable (initialState (initialSavedCoords stored parse).1)
  | reachable_step st st' : reachable st -> step st st' -> reachable st'.

(** The same, when every id that enters the collection is new: the stored
    collection has no repeated id, the records of a bundled dataset give
    pairwise distinct ids, and a save happens at a time whose id is not
    in the collection. *)
Inductive step_fresh : AppState -> AppState -> Prop :=
  | fresh_type v st : step_fresh st (setCoords v st)
  | fresh_show st : step_fresh st (handleShow st).1
  | fresh_select place st : step_fresh st (handleSelectPlace place st)
  | fresh_navigate coord st : step_fresh st (handleNavigateToCoord coord st)
  | fresh_search st : step_fresh st (searchPlaces st).1
  | fresh_search_resume response st :
      step_fresh st (searchPlaces_resume response st).1
  | fresh_load_failed response st :
      (forall locations, response ≠ json_ok locations) ->
      step_fresh st (loadLocations response st).1
  | fresh_load locations st :
      NoDup (ids (toSavedCoord <$> locations)) ->
      step_fresh st (loadLocations (json_ok locations) st).1
  | fresh_save now st :
      JS.Number_toString now ∉ ids (savedCoords st) ->
      step_fresh st (handleSaveCoord now st)
  | fresh_delete id st : step_fresh st (handleDeleteCoord id st).

Inductive reachable_fresh : AppState -> Prop :=
  | reachable_fresh_initial stored parse :
      NoDup (ids (initialSavedCoords stored parse).1) ->
      reachable_fresh (initialState (initialSavedCoords stored parse).1)
  | reachable_fresh_step st st' :
      reachable_fresh st -> step_fresh st st' -> reachable_fresh st'.

(** ** A session

    Nothing stored; the user types [1,2], presses "Show on Map", then
    saves the location twice while [Date.now()] reads 1700000000000. *)

Definition session0 : AppState :=
  initialState (initialSavedCoords None (fun _ => None)).1.
Definition session1 : AppState := setCoords "1,2" session0.
Definition session2 : AppState := (handleShow session1).1.
Definition session3 : AppState :=
  handleSaveCoord (JS.ofZ 1700000000000) session2.
Definition session4 : AppState :=
  handleSaveCoord (JS.ofZ 1700000000000) session3.

(** A bundled dataset that lists one place twice, under two names, and the
    state after it is loaded into the empty collection. *)
Definition twins : list LocationData.t :=
  [LocationData.mk "A" (JS.ofZ 10) (JS.ofZ 20) "first";
   LocationData.mk "B" (JS.ofZ 10) (JS.ofZ 20) "second"].
Definition bundled : AppState := (loadLocations (json_ok twins) session0).1.

(** The surface along the session, and after one more "Show on Map",
    this time for [3,4].  The viewport the map reports is immaterial
    here. *)
Definition someBounds : Bbox.t :=
  Bbox.mk (JS.ofZ 0) (JS.ofZ 0) (JS.ofZ 10) (JS.ofZ 10).
Definition session2' : AppState := setCoords "3,4" session2.
Definition session2'' : AppState := (handleShow session2').1.

Definition surface0 : Surface.t := mount session0 someBounds Surface.empty.
Definition surface1 : Surface.t := commit session0 session1 false someBounds surface0.
Definition surface2 : Surface.t := commit session1 session2 false someBounds surface1.
Definition surface2' : Surface.t := commit session2 session2' false someBounds surface2.
Definition surface2'' : Surface.t :=
  commit session2' session2'' false someBounds surface2'.

(** ** The languages of the input

    The language of a regular expression, against which the derivatives
    are checked. *)

Inductive Lang : JS.regex -> list ascii -> Prop :=
  | Lang_eps : Lang JS.Eps []
  | Lang_chr c : Lang (JS.Chr c) [c]
  | Lang_class (p : ascii -> bool) c : p c = true -> Lang (JS.Class p) [c]
  | Lang_seq r1 r2 s1 s2 :
      Lang r1 s1 -> Lang r2 s2 -> Lang (JS.Seq r1 r2) (s1 ++ s2)
  | Lang_alt_l r1 r2 s : Lang r1 s -> Lang (JS.Alt r1 r2) s
  | Lang_alt_r r1 r2 s : Lang r2 s -> Lang (JS.Alt r1 r2) s
  | Lang_star_nil r : Lang (JS.Star r) []
  | Lang_star_app r s1 s2 :
      Lang r s1 -> Lang (JS.Star r) s2 -> Lang (JS.Star r) (s1 ++ s2).

(** A number as the shape has it: an optional [-], digits (at least one),
    and optionally a [.] followed by digits (possibly none). *)
Record Numeral : Type := mkNumeral
  { negative : bool;
    integer : list ascii;
    fraction : option (list ascii) }.

Definition fractionDigits (n : Numeral) : list ascii := default [] (fraction n).

Definition allDigits (ds : list ascii) : Prop :=
  Forall (fun c => JS.isDigit c = true) ds.

Definition allWhiteSpace (ws : list ascii) : Prop :=
  Forall (fun c => JS.isWhiteSpace c = true) ws.

Definition wellFormed (n : Numeral) : Prop :=
  integer n ≠ [] /\ allDigits (integer n) /\ allDigits (fractionDigits n).

Definition numeralText (n : Numeral) : list ascii :=
  (if negative n then ["-"%char] else []) ++ integer n ++
  match fraction n with
  | Some fp => "."%char :: fp
  | None => []
  end.

(** The Number value of a numeral: its decimal value, rounded. *)
Definition numeralValue (n : Numeral) : JS.number :=
  JS.roundDecimal (negative n)
    (JS.digitsValue (integer n ++ fractionDigits n))
    (- Z.of_nat (length (fractionDigits n))).

(** A string has a prefix that is a StrDecimalLiteral, after leading white
    space, when it goes on with an optional sign and then [Infinity], a
    digit, or a [.] and a digit. *)
Definition literalStart (body : list ascii) : Prop :=
  body = list_ascii_of_string "Infinity" \/
  (exists d, JS.isDigit d = true /\ body = [d]) \/
  (exists d, JS.isDigit d = true /\ body = ["."%char; d]).

Definition beginsWithLiteral (s : string) : Prop :=
  exists ws sign body rest,
    list_ascii_of_string s = ws ++ sign ++ body ++ rest /\
    allWhiteSpace ws /\
    (sign = [] \/ sign = ["-"%char] \/ sign = ["+"%char]) /\
    literalStart body.

(** ** The suggestion panel and the keyboard (lines 295-326, 340-383) *)

(** The panel is rendered when this holds (line 348); [suggestionsRef.current]
    is set exactly then. *)
Definition panelVisible (st : AppState) : bool :=
  showSuggestions st && (0 <? length (suggestions st))%nat.

(** What a call of [handleKeyDown] ends in: it returns, having called
    [e.preventDefault()] or not, or it throws. *)
Inductive KeyOutcome : Type :=
  | handled (st : AppState) (defaultPrevented : bool)
  | threw_TypeError.

(** [handleKeyDown] (lines 295-310); [key] is [e.key].  With the cursor
    past the end of the list, [suggestions[selectedIndex]] is [undefined]
    and [handleSelectPlace] throws on [place.display_name], before any
    setter is called. *)
Definition handleKeyDown (key : string) (st : AppState) : KeyOutcome :=
  if bool_decide (key = "ArrowDown") then
    handled
      (st |> setSelectedIndex
               (let prev := selectedIndex st in
                if prev <? Z.of_nat (length (suggestions st)) - 1
                then prev + 1 else prev))
      true
  else if bool_decide (key = "ArrowUp") then
    handled
      (st |> setSelectedIndex
               (let prev := selectedIndex st in
                if 0 <? prev then prev - 1 else -1))
      true
  else if bool_decide (key = "Enter") && (0 <=? selectedIndex st) then
    match suggestions st !! Z.to_nat (selectedIndex st) with
    | Some place => handled (handleSelectPlace place st) true
    | None => threw_TypeError
    end
  else if bool_decide (key = "Escape") then
    handled (st |> setShowSuggestions false) false
  else handled st false.

(** [onFocus] of the input (lines 340-344). *)
Definition handleFocus (st : AppState) : AppState :=
  if (0 <? length (suggestions st))%nat then st |> setShowSuggestions true
  else st.

(** [handleClickOutside] (lines 313-322); the flags tell whether the
    panel, the input, contains the target of the event.  The input is
    always rendered. *)
Definition handleClickOutside (inSuggestions inInput : bool)
    (st : AppState) : AppState :=
  if panelVisible st && negb inSuggestions && negb inInput
  then st |> setShowSuggestions false
  else st.

(** [onMouseEnter] of the suggestion [index] (line 370). *)
Definition handleMouseEnter (index : nat) (st : AppState) : AppState :=
  st |> setSelectedIndex (Z.of_nat index).

(** ** The debounced search (lines 91-128)

    The effect depends on [coords]: at every render where [coords]
    changed, its cleanup clears the pending timer and its body sets a new
    one, whose callback is the [searchPlaces] of that render.  [timer] is
    the input text that callback holds, when a timer is pending. *)
Record Debounced : Type := mkDebounced
  { app : AppState;
    timer : option string }.

(** After the first render. *)
Definition mounted (st : AppState) : Debounced :=
  mkDebounced st (Some (coords st)).

(** After a render with the state [st']. *)
Definition rerender (st' : AppState) (d : Debounced) : Debounced :=
  mkDebounced st'
    (if bool_decide (coords st' = coords (app d)) then timer d
     else Some (coords st')).

(** The pending timer fires: its [searchPlaces] reads the text it holds
    and updates the state of the component. *)
Definition timeout (d : Debounced) : Debounced * list Effect :=
  match timer d with
  | Some held =>
      let r := searchPlaces (app d |> setCoords held) in
      (mkDebounced (r.1 |> setCoords (coords (app d))) None, r.2)
  | None => (d, [])
  end.

Inductive Event : Type :=
  | ev_change (v : string)
  | ev_keyDown (key : string)
  | ev_focus
  | ev_mouseDown (inSuggestions inInput : bool)
  | ev_mouseEnter (index : nat)
  | ev_click (index : nat)
  | ev_show
  | ev_save (now : JS.number)
  | ev_delete (id : string)
  | ev_navigate (index : nat)
  | ev_timeout
  | ev_searchResponse (response : option (list Place.t))
  | ev_locations (response : Fetched (list LocationData.t)).

Definition uncaughtTypeError : string :=
  "Uncaught TypeError: Cannot read properties of undefined (reading 'display_name')".

(** One event.  A suggestion can be entered or clicked, and a saved point
    navigated to, only when it is rendered. *)
Definition react (e : Event) (d : Debounced) : Debounced * list Effect :=
  let st := app d in
  match e with
  | ev_change v => (rerender (st |> setCoords v) d, [])
  | ev_keyDown key =>
      match handleKeyDown key st with
      | handled st' _ => (rerender st' d, [])
      | threw_TypeError => (d, [console_error uncaughtTypeError])
      end
  | ev_focus => (rerender (handleFocus st) d, [])
  | ev_mouseDown inSuggestions inInput =>
      (rerender (handleClickOutside inSuggestions inInput st) d, [])
  | ev_mouseEnter index =>
      if panelVisible st && bool_decide (is_Some (suggestions st !! index))
      then (rerender (handleMouseEnter index st) d, [])
      else (d, [])
  | ev_click index =>
      match panelVisible st, suggestions st !! index with
      | true, Some place => (rerender (handleSelectPlace place st) d, [])
      | _, _ => (d, [])
      end
  | ev_show => let r := handleShow st in (rerender r.1 d, r.2)
  | ev_save now => (rerender (handleSaveCoord now st) d, [])
  | ev_delete id => (rerender (handleDeleteCoord id st) d, [])
  | ev_navigate index =>
      match savedCoords st !! index with
      | Some coord => (rerender (handleNavigateToCoord coord st) d, [])
      | None => (d, [])
      end
  | ev_timeout => timeout d
  | ev_searchResponse response =>
      let r := searchPlaces_resume response st in (rerender r.1 d, r.2)
  | ev_locations response =>
      let r := loadLocations response st in (rerender r.1 d, r.2)
  end.

(** A sequence of events, with everything it causes, in order. *)
Fixpoint run (es : list Event) (d : Debounced) : Debounced * list Effect :=
  match es with
  | [] => (d, [])
  | e :: es' =>
      let r := react e d in
      let r' := run es' r.1 in
      (r'.1, r.2 ++ r'.2)
  end.

(** ** The surface over time *)

(** The map is redrawn by the effects and by the settle events of the map
    ([moveend], [dragend], [zoomend]) and the deferred call, which all run
    [handleMapViewChange].  The renders followed are those whose focus
    location, if any, is [geographic]: there the map effect runs to its
    end (see [initMap]). *)
Inductive surface_step : Surface.t -> Surface.t -> Prop :=
  | surface_commit prev st fresh bounds sf :
      drawable st ->
      surface_step sf (commit prev st fresh bounds sf)
  | surface_settle savedCoords bounds sf :
      surface_step sf (handleMapViewChange savedCoords bounds sf).

Inductive surface_reachable : Surface.t -> Prop :=
  | surface_mounted st bounds :
      drawable st ->
      surface_reachable (mount st bounds Surface.empty)
  | surface_next sf sf' :
      surface_reachable sf -> surface_step sf sf' -> surface_reachable sf'.

(** Every map built so far is the live one or has been removed, once. *)
Definition accounted (sf : Surface.t) : Prop :=
  Surface.removed sf ++ option_list (Surface.mapRef sf)
  = seq 0 (Surface.created sf).

(** A list of two suggestions for the text [isr], with the cursor on the
    first. *)
Definition telAviv : Place.t := Place.mk "Tel Aviv, Israel" "32.0853" "34.7818".
Definition haifa : Place.t := Place.mk "Haifa, Israel" "32.7940" "34.9896".
Definition listing : AppState :=
  (searchPlaces_resume (Some [telAviv; haifa]) (setCoords "isr" session0)).1
    |> setSelectedIndex 0.

(** What an event can do to the focus location: nothing, or set both
    [lat] and [lon]. *)
Definition focus_kept_or_set (st st' : AppState) : Prop :=
  (lat st' = lat st /\ lon st' = lon st) \/
  (is_Some (lat st') /\ is_Some (lon st')).

(** The text a pending timer holds is the text of the input. *)
Definition timer_current (d : Debounced) : Prop :=
  forall held, timer d = Some held -> held = coords (app d).

(** Without a map nothing is drawn. *)
Definition bare (sf : Surface.t) : Prop :=
  Surface.mapRef sf = None ->
  Surface.center sf = None /\ Surface.markersRef sf = [] /\
  Surface.currentLocationMarkerRef sf = None.

(** * Theorems *)

(** ** Comparison of numbers *)

Lemma SFcompare_antisym (x y : spec_float) :
  SFcompare y x = option_map CompOpp (SFcompare x y).
Proof.
  destruct x as [sx | sx | | sx mx ex], y as [sy | sy | | sy my ey]; simpl;
    try reflexivity;
    repeat match goal with b : bool |- _ => destruct b end;
    simpl; try reflexivity.
  - rewrite (Z.compare_antisym ex ey).
    destruct (ex ?= ey); simpl; try reflexivity.
    now rewrite (Pos.compare_cont_antisym mx my Eq).
  - rewrite (Z.compare_antisym ex ey).
    destruct (ex ?= ey); simpl; try reflexivity.
    now rewrite (Pos.compare_cont_antisym mx my Eq).
Qed.

(** The IEEE order [SFleb] is the order both JS operators compute. *)
Lemma le_SFleb (x y : JS.number) : JS.le x y = SFleb x y.
Proof.
  unfold JS.le, JS.lessThan, SFleb. rewrite (SFcompare_antisym x y).
  destruct (SFcompare x y) as [[]|]; reflexivity.
Qed.

Lemma ge_SFleb (x y : JS.number) : JS.ge x y = SFleb y x.
Proof. rewrite <- le_SFleb. reflexivity. Qed.

Lemma visible_test_within (b : Bbox.t) (p : SavedCoord.t) :
  JS.ge (SavedCoord.lat p) (Bbox.minLat b) &&
  JS.le (SavedCoord.lat p) (Bbox.maxLat b) &&
  JS.ge (SavedCoord.lon p) (Bbox.minLon b) &&
  JS.le (SavedCoord.lon p) (Bbox.maxLon b) = true <-> within b p.
Proof.
  rewrite !ge_SFleb, !le_SFleb, !andb_true_iff. unfold within. tauto.
Qed.

Lemma visibleCoords_filter (V : Bbox.t) (S : list SavedCoord.t) :
  visibleCoords V S = filter (within V) S.
Proof.
  unfold visibleCoords. induction S as [|p S IH]; [reflexivity|].
  simpl. rewrite filter_cons, IH.
  destruct (decide (within V p)) as [Hw|Hw].
  - apply visible_test_within in Hw. now rewrite Hw.
  - destruct (_ && _) eqn:Ht; [|reflexivity].
    apply visible_test_within in Ht. contradiction.
Qed.

(** C1. For every viewport [V] and every collection [S], the visible subset
    is exactly the points of [S] inside [V], bounds included: it is the
    sub-list of [S] (same order, same multiplicities) selected by
    [minLat <= lat <= maxLat /\ minLon <= lon <= maxLon], so a point belongs
    to it iff it belongs to [S] and satisfies the four inequalities. *)
Theorem visibleCoords_exact (V : Bbox.t) (S : list SavedCoord.t) :
  visibleCoords V S = filter (within V) S /\
  (forall p, p ∈ visibleCoords V S <-> p ∈ S /\ within V p).
Proof.
  split; [apply visibleCoords_filter|].
  intros p. rewrite visibleCoords_filter, list_elem_of_filter. tauto.
Qed.

(** The markers [handleMapViewChange] leaves on a live map are those of
    the visible subset. *)
Lemma handleMapViewChange_markers (S : list SavedCoord.t) (V : Bbox.t)
    (sf : Surface.t) :
  is_Some (Surface.mapRef sf) ->
  Surface.markersRef (handleMapViewChange S V sf) = filter (within V) S.
Proof.
  intros [map Hmap]. unfold handleMapViewChange. rewrite Hmap. simpl.
  rewrite visibleCoords_filter. now destruct V.
Qed.

(** The viewport of the specification: [(5,5)] is shown, [(15,5)] is not. *)
Example visibleCoords_scenario :
  let V := Bbox.mk (JS.ofZ 0) (JS.ofZ 0) (JS.ofZ 10) (JS.ofZ 10) in
  let inside := SavedCoord.mk "a" (JS.ofZ 5) (JS.ofZ 5) None None in
  let outside := SavedCoord.mk "b" (JS.ofZ 15) (JS.ofZ 5) None None in
  let corner := SavedCoord.mk "c" (JS.ofZ 10) (JS.ofZ 0) None None in
  let nowhere := SavedCoord.mk "d" JS.NaN (JS.ofZ 5) None None in
  visibleCoords V [inside; outside; corner; nowhere] = [inside; corner].
Proof. vm_compute. reflexivity. Qed.

(** ** The saved-point collection *)

Section Collection.
Implicit Types (prev newCoords toAdd : list SavedCoord.t) (st : AppState).

(** What [addLocations] appends: the new points whose id is not among
    the ids of [prev], in the order of the dataset. *)
Lemma addLocations_app newCoords prev :
  addLocations newCoords prev =
  prev ++ filter (fun coord => SavedCoord.id coord ∉ ids prev) newCoords.
Proof.
  unfold addLocations. f_equal. apply list_filter_iff. intros coord.
  now rewrite (not_elem_of_list_to_set (C := gset string)).
Qed.

Lemma filter_none {A} (P : A -> Prop) `{!forall x, Decision (P x)} (l : list A) :
  Forall (fun x => ~ P x) l -> filter P l = [].
Proof.
  induction 1 as [|x l Hx _ IH]; [reflexivity|].
  now rewrite filter_cons_False.
Qed.

Lemma filter_all {A} (P : A -> Prop) `{!forall x, Decision (P x)} (l : list A) :
  Forall P l -> filter P l = l.
Proof.
  induction 1 as [|x l Hx _ IH]; [reflexivity|].
  rewrite filter_cons_True by assumption. now f_equal.
Qed.

Lemma ids_app l k : ids (l ++ k) = ids l ++ ids k.
Proof. apply fmap_app. Qed.

Lemma elem_of_ids (p : SavedCoord.t) l : p ∈ l -> SavedCoord.id p ∈ ids l.
Proof. intros Hp. unfold ids. now apply list_elem_of_fmap_2. Qed.

Lemma savedCoords_loadLocations_ok locations st :
  savedCoords (loadLocations (json_ok locations) st).1 =
  addLocations (toSavedCoord <$> locations) (savedCoords st).
Proof. reflexivity. Qed.

Lemma loadLocations_failed (response : Fetched (list LocationData.t)) st :
  (forall locations, response ≠ json_ok locations) ->
  (loadLocations response st).1 = st.
Proof.
  intros Hr. destruct response; try reflexivity. now destruct (Hr data).
Qed.

(** Deleting keeps what is left in place. *)
Lemma delete_absent (id : string) prev :
  id ∉ ids prev ->
  filter (fun coord => SavedCoord.id coord ≠ id) prev = prev.
Proof.
  intros Hid. apply filter_all, Forall_forall. intros p Hp Heq.
  apply Hid. rewrite <- Heq. now apply elem_of_ids.
Qed.
End Collection.

Section CollectionProperties.
Implicit Types (prev newCoords toAdd : list SavedCoord.t) (st : AppState).

(** C10. The bundled-dataset merge keeps the existing collection as an
    unchanged prefix of the result, whatever the response: nothing is
    removed, reordered or modified, and what is new comes after it, drawn
    in order from the converted dataset. *)
Theorem loadLocations_prefix (response : Fetched (list LocationData.t)) st :
  savedCoords st `prefix_of` savedCoords (loadLocations response st).1 /\
  exists toAdd,
    savedCoords (loadLocations response st).1 = savedCoords st ++ toAdd /\
    forall locations, response = json_ok locations ->
      toAdd `sublist_of` (toSavedCoord <$> locations).
Proof.
  destruct response as [| statusText | | locations].
  1-3: split; [reflexivity|]; exists []; split;
       [simpl; now rewrite app_nil_r | discriminate].
  rewrite savedCoords_loadLocations_ok, addLocations_app.
  split; [now apply prefix_app_r|].
  eexists. split; [reflexivity|].
  intros ? [= <-]. apply sublist_filter.
Qed.

Lemma loadLocations_present (locations : list LocationData.t) st :
  (forall location, location ∈ locations ->
     SavedCoord.id (toSavedCoord location) ∈ ids (savedCoords st)) ->
  (loadLocations (json_ok locations) st).1 = st.
Proof.
  intros Hids.
  assert (E : addLocations (toSavedCoord <$> locations) (savedCoords st)
              = savedCoords st).
  { rewrite addLocations_app, filter_none; [now rewrite app_nil_r|].
    apply Forall_forall. intros coord Hc Hn.
    apply list_elem_of_fmap in Hc as (location & -> & Hl). now apply Hn, Hids. }
  simpl. unfold setSavedCoords. rewrite E. now destruct st.
Qed.

(** The merge run twice in a row is the merge run once, for every
    dataset and every collection. *)
Lemma loadLocations_idempotent (locations : list LocationData.t) st :
  let st' := (loadLocations (json_ok locations) st).1 in
  (loadLocations (json_ok locations) st').1 = st'.
Proof.
  intros st'. apply loadLocations_present. intros location Hl.
  unfold st'. rewrite savedCoords_loadLocations_ok, addLocations_app, ids_app.
  destruct (decide (SavedCoord.id (toSavedCoord location) ∈ ids (savedCoords st)))
    as [Hin|Hout]; apply elem_of_app; [now left|right].
  apply elem_of_ids, list_elem_of_filter. split; [exact Hout|].
  now apply list_elem_of_fmap_2.
Qed.

(** C7. The merge skips every bundled point whose id is in the
    collection.  Hence, against a collection that already holds the ids of
    the bundled points, it adds nothing and the size is unchanged; and that
    is the case of a second run, whatever the first one started from. *)
Theorem loadLocations_again (locations : list LocationData.t) st :
  savedCoords (loadLocations (json_ok locations) st).1 =
    savedCoords st ++
    filter (fun coord => SavedCoord.id coord ∉ ids (savedCoords st))
      (toSavedCoord <$> locations) /\
  ((forall location, location ∈ locations ->
      SavedCoord.id (toSavedCoord location) ∈ ids (savedCoords st)) ->
   savedCoords (loadLocations (json_ok locations) st).1 = savedCoords st /\
   length (savedCoords (loadLocations (json_ok locations) st).1) =
     length (savedCoords st)) /\
  (let st' := (loadLocations (json_ok locations) st).1 in
   (loadLocations (json_ok locations) st').1 = st').
Proof.
  split; [|split].
  - rewrite savedCoords_loadLocations_ok. apply addLocations_app.
  - intros Hids. now rewrite (loadLocations_present _ _ Hids).
  - apply loadLocations_idempotent.
Qed.

(** C8. A save whose id is not in the collection, followed by the delete
    of that id, gives back the state before the save: the collection is
    the same list, in the same order, with the same ids. *)
Theorem save_then_delete (now : JS.number) st :
  JS.Number_toString now ∉ ids (savedCoords st) ->
  handleDeleteCoord (JS.Number_toString now) (handleSaveCoord now st) = st.
Proof.
  intros Hfresh. unfold handleSaveCoord, handleDeleteCoord, setSavedCoords.
  destruct st as [c [la|] [lo|] sg sh si sv]; simpl in *;
    rewrite ?filter_app, ?(delete_absent _ _ Hfresh); try reflexivity.
  rewrite filter_cons_False by (simpl; tauto).
  now rewrite filter_nil, app_nil_r.
Qed.

(** C6. A record of the bundled dataset enters the collection with its
    fields swapped: every point the merge adds comes from a record [r]
    with latitude [r.lon], longitude [r.lat] and the id
    [location-<latitude>-<longitude>], a function of the swapped pair;
    every record whose id is new is added so.  The record
    [{name: "A", lat: 10, lon: 20}] gives latitude 20, longitude 10 and
    the id [location-20-10]. *)
Theorem bundled_point_swapped :
  (forall (locations : list LocationData.t) st (p : SavedCoord.t),
     p ∈ savedCoords (loadLocations (json_ok locations) st).1 ->
     p ∈ savedCoords st \/
     exists r, r ∈ locations /\
       SavedCoord.lat p = LocationData.lon r /\
       SavedCoord.lon p = LocationData.lat r /\
       SavedCoord.id p =
         "location-" +:+ JS.Number_toString (SavedCoord.lat p) +:+ "-"
           +:+ JS.Number_toString (SavedCoord.lon p) /\
       SavedCoord.name p = Some (LocationData.name r) /\
       SavedCoord.description p = Some (LocationData.description r)) /\
  (forall (locations : list LocationData.t) st (r : LocationData.t),
     r ∈ locations ->
     SavedCoord.id (toSavedCoord r) ∉ ids (savedCoords st) ->
     toSavedCoord r ∈ savedCoords (loadLocations (json_ok locations) st).1) /\
  (forall d st,
     savedCoords st = [] ->
     savedCoords
       (loadLocations
          (json_ok [LocationData.mk "A" (JS.ofZ 10) (JS.ofZ 20) d]) st).1 =
     [SavedCoord.mk "location-20-10" (JS.ofZ 20) (JS.ofZ 10) (Some "A") (Some d)]).
Proof.
  split; [|split].
  - intros locations st p.
    rewrite savedCoords_loadLocations_ok, addLocations_app, elem_of_app.
    intros [Hp|Hp]; [now left|right].
    apply list_elem_of_filter in Hp as [_ Hp].
    apply list_elem_of_fmap in Hp as (r & -> & Hr).
    exists r. now repeat split.
  - intros locations st r Hr Hnew.
    rewrite savedCoords_loadLocations_ok, addLocations_app, elem_of_app.
    right. apply list_elem_of_filter. split; [exact Hnew|].
    now apply list_elem_of_fmap_2.
  - intros d st Hst.
    rewrite savedCoords_loadLocations_ok, addLocations_app, Hst.
    vm_compute. reflexivity.
Qed.

(** ** Uniqueness of ids *)

Lemma savedCoords_handleShow st : savedCoords (handleShow st).1 = savedCoords st.
Proof. unfold handleShow. now destruct (_ && _). Qed.

Lemma savedCoords_searchPlaces st :
  savedCoords (searchPlaces st).1 = savedCoords st.
Proof.
  unfold searchPlaces. destruct (_ <? _)%nat; [reflexivity|].
  now destruct (JS.matches _ _).
Qed.

Lemma savedCoords_searchPlaces_resume response st :
  savedCoords (searchPlaces_resume response st).1 = savedCoords st.
Proof. now destruct response. Qed.

Lemma NoDup_addLocations newCoords prev :
  NoDup (ids prev) -> NoDup (ids newCoords) ->
  NoDup (ids (addLocations newCoords prev)).
Proof.
  intros Hprev Hnew. rewrite addLocations_app, ids_app.
  apply NoDup_app. split; [exact Hprev|]. split.
  - intros id Hid Hid'. unfold ids in Hid'.
    apply list_elem_of_fmap in Hid' as (coord & -> & Hc).
    apply list_elem_of_filter in Hc as [Hc _]. now apply Hc.
  - eapply sublist_NoDup; [exact Hnew|].
    apply fmap_sublist, sublist_filter.
Qed.

Lemma step_fresh_NoDup st st' :
  step_fresh st st' -> NoDup (ids (savedCoords st)) ->
  NoDup (ids (savedCoords st')).
Proof.
  intros Hstep Hst.
  destruct Hstep as [v st | st | place st | coord st | st | response st
                    | response st Hfail | locations st Hnew
                    | now st Hfresh | id st].
  - exact Hst.
  - now rewrite savedCoords_handleShow.
  - exact Hst.
  - exact Hst.
  - now rewrite savedCoords_searchPlaces.
  - now rewrite savedCoords_searchPlaces_resume.
  - now rewrite loadLocations_failed.
  - rewrite savedCoords_loadLocations_ok. now apply NoDup_addLocations.
  - unfold handleSaveCoord.
    destruct (lat st) as [la|], (lon st) as [lo|]; try exact Hst.
    simpl. rewrite ids_app. apply NoDup_app. split; [exact Hst|]. split.
    + intros id Hid Hid'. apply list_elem_of_singleton in Hid' as ->.
      now apply Hfresh.
    + apply NoDup_singleton.
  - simpl. eapply sublist_NoDup; [exact Hst|].
    apply fmap_sublist, sublist_filter.
Qed.

(** No event repeats an id that was unique: in every state reached while
    each id that enters the collection is new (the stored collection has
    no repeated id, a bundled dataset gives pairwise distinct ids, a save
    gets an id that is not in the collection), every id occurs at most
    once.  That the ids that enter are new is assumed here; the code does
    not see to it. *)
Theorem ids_unique_when_fresh st :
  reachable_fresh st -> NoDup (ids (savedCoords st)).
Proof.
  induction 1 as [stored parse Hinit | st st' _ IH Hstep].
  - exact Hinit.
  - now apply (step_fresh_NoDup st st').
Qed.
End CollectionProperties.

(** The session of [session0] to [session3] only lets new ids in. *)
Lemma session0_reachable_fresh : reachable_fresh session0.
Proof. apply (reachable_fresh_initial None (fun _ => None)). apply NoDup_nil_2. Defined.

Lemma session2_reachable_fresh : reachable_fresh session2.
Proof.
  apply (reachable_fresh_step session1); [|apply fresh_show].
  apply (reachable_fresh_step session0); [|apply fresh_type].
  exact session0_reachable_fresh.
Defined.

Lemma session3_reachable_fresh : reachable_fresh session3.
Proof.
  apply (reachable_fresh_step session2); [exact session2_reachable_fresh|].
  apply fresh_save. apply (bool_decide_unpack _). vm_compute. exact I.
Defined.

Lemma ids_unique_when_fresh_witness :
  reachable_fresh session3 /\ NoDup (ids (savedCoords session3)).
Proof.
  split; [exact session3_reachable_fresh|].
  exact (ids_unique_when_fresh session3 session3_reachable_fresh).
Defined.

(** C4, on the code.  The two saves of the session happen within the
    same millisecond, [Date.now()] reads the same, and the collection holds
    the id [1700000000000] twice.  Likewise a dataset that lists one place
    twice puts the id [location-20-10] twice into the empty collection:
    the merge compares the new points with the collection only.  The id is
    what the saved points are told apart by (the key of the list item at
    line 405, the argument of the delete at line 431): one press of Delete
    on either of the two points removes both. *)
Theorem ids_repeat_after_two_saves :
  (reachable session4 /\
   ids (savedCoords session4) = ["1700000000000"; "1700000000000"]%string /\
   ~ NoDup (ids (savedCoords session4))) /\
  (reachable bundled /\
   ids (savedCoords bundled) = ["location-20-10"; "location-20-10"]%string /\
   ~ NoDup (ids (savedCoords bundled))) /\
  (length (savedCoords session4) = 2%nat /\
   savedCoords (handleDeleteCoord "1700000000000" session4) = []) /\
  (length (savedCoords bundled) = 2%nat /\
   savedCoords (handleDeleteCoord "location-20-10" bundled) = []).
Proof.
  assert (Hrep : forall (x : string), ~ NoDup [x; x]).
  { intros x Hnd. apply NoDup_cons in Hnd as [Hnd _].
    apply Hnd. apply list_elem_of_here. }
  assert (H0 : reachable session0)
    by apply (reachable_initial None (fun _ => None)).
  assert (E : ids (savedCoords session4)
              = ["1700000000000"; "1700000000000"]%string)
    by (vm_compute; reflexivity).
  assert (F : ids (savedCoords bundled)
              = ["location-20-10"; "location-20-10"]%string)
    by (vm_compute; reflexivity).
  split; [split; [|split; [exact E|]]|].
  - apply (reachable_step session3); [|apply step_save].
    apply (reachable_step session2); [|apply step_save].
    apply (reachable_step session1); [|apply step_show].
    apply (reachable_step session0); [|apply step_type].
    exact H0.
  - rewrite E. apply Hrep.
  - split; [split; [|split; [exact F|]]|].
    + apply (reachable_step session0); [exact H0|].
      apply (step_load (json_ok twins)).
    + rewrite F. apply Hrep.
    + split; split; vm_compute; reflexivity.
Qed.

Lemma bundled_point_swapped_witness :
  let r := LocationData.mk "A" (JS.ofZ 10) (JS.ofZ 20) "first" in
  toSavedCoord r ∈ savedCoords (loadLocations (json_ok [r]) session3).1 /\
  SavedCoord.id (toSavedCoord r) = "location-20-10" /\
  SavedCoord.lat (toSavedCoord r) = JS.ofZ 20 /\
  SavedCoord.lon (toSavedCoord r) = JS.ofZ 10.
Proof.
  intros r. split; [|vm_compute; repeat split; reflexivity].
  apply (proj1 (proj2 bundled_point_swapped) [r] session3 r).
  - apply list_elem_of_here.
  - apply (bool_decide_unpack _). vm_compute. exact I.
Defined.

Lemma save_then_delete_witness :
  (JS.Number_toString (JS.ofZ 1700000000001) ∉ ids (savedCoords session3)) /\
  handleDeleteCoord (JS.Number_toString (JS.ofZ 1700000000001))
    (handleSaveCoord (JS.ofZ 1700000000001) session3) = session3.
Proof.
  assert (H : JS.Number_toString (JS.ofZ 1700000000001) ∉ ids (savedCoords session3))
    by (apply (bool_decide_unpack _); vm_compute; exact I).
  split; [exact H|].
  exact (save_then_delete (JS.ofZ 1700000000001) session3 H).
Defined.

Lemma loadLocations_again_witness :
  let locations := [LocationData.mk "A" (JS.ofZ 10) (JS.ofZ 20) "first"] in
  let st := (loadLocations (json_ok locations) session3).1 in
  length (savedCoords st) = 2%nat /\
  length (savedCoords (loadLocations (json_ok locations) st).1) =
    length (savedCoords st).
Proof.
  intros locations st. split; [reflexivity|].
  apply (proj1 (proj2 (loadLocations_again locations st))).
  intros location Hl. apply list_elem_of_singleton in Hl as ->.
  apply (bool_decide_unpack _). vm_compute. exact I.
Defined.

(** ** Regular expressions: the derivatives decide the language *)

Section Regex.
Implicit Types (r : JS.regex) (s : list ascii) (c : ascii).

Lemma nullable_Lang r : JS.nullable r = true <-> Lang r [].
Proof.
  split.
  - induction r as [| | d | p | r1 IH1 r2 IH2 | r1 IH1 r2 IH2 | r1 IH1];
      simpl; intros H; try discriminate.
    + constructor.
    + apply andb_true_iff in H as [H1 H2].
      apply (Lang_seq r1 r2 [] []); auto.
    + apply orb_true_iff in H as [H|H]; [apply Lang_alt_l | apply Lang_alt_r]; auto.
    + constructor.
  - remember [] as s eqn:Es. induction 1 as
      [ | d | p d Hp | r1 r2 s1 s2 _ IH1 _ IH2 | r1 r2 s _ IH | r1 r2 s _ IH
      | r1 | r1 s1 s2 _ _ _ _]; simpl; try discriminate; try reflexivity.
    + apply app_eq_nil in Es as [-> ->]. now rewrite IH1, IH2.
    + now rewrite IH.
    + rewrite IH by assumption. apply orb_true_r.
Qed.

Lemma derive_sound c r s : Lang (JS.derive c r) s -> Lang r (c :: s).
Proof.
  revert s.
  induction r as [| | d | p | r1 IH1 r2 IH2 | r1 IH1 r2 IH2 | r1 IH1];
    simpl; intros s H.
  - inversion H.
  - inversion H.
  - destruct (Ascii.eqb c d) eqn:E; inversion H; subst.
    apply Ascii.eqb_eq in E as ->. constructor.
  - destruct (p c) eqn:E; inversion H; subst. now constructor.
  - assert (Hl : forall s, Lang (JS.Seq (JS.derive c r1) r2) s ->
                           Lang (JS.Seq r1 r2) (c :: s)).
    { intros s' H'. inversion H' as [ | | | ? ? s1 s2 H1 H2 | | | | ]; subst.
      change (c :: s1 ++ s2) with ((c :: s1) ++ s2). constructor; auto. }
    destruct (JS.nullable r1) eqn:En; [|now apply Hl].
    inversion H as [ | | | | ? ? ? H1 | ? ? ? H2 | | ]; subst; [now apply Hl|].
    apply (Lang_seq r1 r2 [] (c :: s)); [|now apply IH2].
    now apply nullable_Lang.
  - inversion H; subst; [apply Lang_alt_l | apply Lang_alt_r]; auto.
  - inversion H as [ | | | ? ? s1 s2 H1 H2 | | | | ]; subst.
    change (c :: s1 ++ s2) with ((c :: s1) ++ s2). constructor; auto.
Qed.

Lemma derive_complete c r s : Lang r (c :: s) -> Lang (JS.derive c r) s.
Proof.
  remember (c :: s) as s0 eqn:Es. intros H. revert s Es.
  induction H as
    [ | d | p d Hp | r1 r2 s1 s2 H1 IH1 H2 IH2 | r1 r2 s0 _ IH | r1 r2 s0 _ IH
    | r1 | r1 s1 s2 H1 IH1 H2 IH2]; intros s Es; simpl; try discriminate.
  - injection Es as ? ?; subst. rewrite Ascii.eqb_refl. constructor.
  - injection Es as ? ?; subst. rewrite Hp. constructor.
  - destruct s1 as [|c1 s1]; simpl in Es.
    + apply nullable_Lang in H1. rewrite H1. apply Lang_alt_r. now apply IH2.
    + injection Es as ? ?; subst.
      assert (Lang (JS.Seq (JS.derive c r1) r2) (s1 ++ s2))
        by (constructor; auto).
      destruct (JS.nullable r1); [now apply Lang_alt_l | assumption].
  - apply Lang_alt_l. now apply IH.
  - apply Lang_alt_r. now apply IH.
  - destruct s1 as [|c1 s1]; simpl in Es.
    + now apply IH2.
    + injection Es as ? ?; subst. constructor; auto.
Qed.

Lemma matches_chars_Lang r s : JS.matches_chars r s = true <-> Lang r s.
Proof.
  revert r. induction s as [|c s IH]; intros r; simpl.
  - apply nullable_Lang.
  - rewrite IH. split; [apply derive_sound | apply derive_complete].
Qed.

Lemma Lang_star_class (p : ascii -> bool) s :
  Lang (JS.Star (JS.Class p)) s <-> Forall (fun c => p c = true) s.
Proof.
  split.
  - remember (JS.Star (JS.Class p)) as r eqn:Er.
    induction 1 as [ | | | | | | r1 | r1 s1 s2 H1 _ _ IH2]; try discriminate.
    + constructor.
    + injection Er as ->. inversion H1; subst. constructor; auto.
  - induction 1 as [|c s Hc _ IH]; [constructor|].
    change (c :: s) with ([c] ++ s). constructor; [now constructor | exact IH].
Qed.

Lemma Lang_opt_chr c s : Lang (JS.Opt (JS.Chr c)) s <-> s = [c] \/ s = [].
Proof.
  split.
  - inversion 1 as [ | | | | ? ? ? H1 | ? ? ? H1 | | ]; subst;
      inversion H1; auto.
  - intros [-> | ->]; [apply Lang_alt_l | apply Lang_alt_r]; constructor.
Qed.
End Regex.

(** ** The shape of a coordinate pair, in words *)

Section Shape.
Implicit Types (r : JS.regex) (s : list ascii) (n : Numeral).

Lemma Lang_seq_inv r1 r2 s :
  Lang (JS.Seq r1 r2) s <-> exists s1 s2, s = s1 ++ s2 /\ Lang r1 s1 /\ Lang r2 s2.
Proof.
  split.
  - inversion 1; subst. eauto.
  - intros (s1 & s2 & -> & H1 & H2). now constructor.
Qed.

Lemma Lang_plus_class (p : ascii -> bool) s :
  Lang (JS.Plus (JS.Class p)) s <-> s ≠ [] /\ Forall (fun c => p c = true) s.
Proof.
  unfold JS.Plus. rewrite Lang_seq_inv. split.
  - intros (s1 & s2 & -> & H1 & H2). apply Lang_star_class in H2.
    inversion H1; subst. split; [discriminate|]. now constructor.
  - intros [Hne Hs]. destruct Hs as [|c s Hc Hs]; [contradiction|].
    exists [c], s. split; [reflexivity|]. split; [now constructor|].
    now apply Lang_star_class.
Qed.

Lemma Lang_numberShape s :
  Lang numberShape s <-> exists n, wellFormed n /\ s = numeralText n.
Proof.
  unfold numberShape. rewrite Lang_seq_inv. split.
  - intros (sg & s1 & -> & Hsg & H1).
    apply Lang_seq_inv in H1 as (ip & s2 & -> & Hip & H2).
    apply Lang_seq_inv in H2 as (dot & fs & -> & Hdot & Hfs).
    apply Lang_opt_chr in Hsg, Hdot. apply Lang_plus_class in Hip as [Hne Hip].
    apply Lang_star_class in Hfs.
    destruct Hdot as [-> | ->].
    + exists (mkNumeral (bool_decide (sg = ["-"%char])) ip (Some fs)).
      split; [now repeat split|].
      unfold numeralText; simpl. now destruct Hsg as [-> | ->].
    + exists (mkNumeral (bool_decide (sg = ["-"%char])) (ip ++ fs) None).
      split.
      * repeat split; simpl.
        -- intros [-> _]%app_eq_nil. now apply Hne.
        -- now apply Forall_app.
        -- constructor.
      * unfold numeralText; simpl. rewrite app_nil_r.
        now destruct Hsg as [-> | ->].
  - intros ([neg ip frac] & (Hne & Hip & Hfp) & ->).
    unfold numeralText, fractionDigits in *; simpl in *.
    exists (if neg then ["-"%char] else []),
           (ip ++ match frac with Some fp => "."%char :: fp | None => [] end).
    split; [reflexivity|]. split.
    { apply Lang_opt_chr. destruct neg; auto. }
    apply Lang_seq_inv. eexists _, _. split; [reflexivity|].
    split; [now apply Lang_plus_class|].
    apply Lang_seq_inv. destruct frac as [fp|]; simpl in *.
    + exists ["."%char], fp. split; [reflexivity|].
      split; [apply Lang_opt_chr; auto | now apply Lang_star_class].
    + exists [], []. split; [reflexivity|].
      split; [apply Lang_opt_chr; auto | constructor].
Qed.

(** The pattern of line 99 says: a numeral, a comma, white space if any,
    a numeral, and nothing else. *)
Lemma matches_coordShape (input : string) :
  JS.matches coordShape input = true <->
  exists n1 ws n2,
    wellFormed n1 /\ allWhiteSpace ws /\ wellFormed n2 /\
    list_ascii_of_string input =
      numeralText n1 ++ ","%char :: ws ++ numeralText n2.
Proof.
  unfold JS.matches. rewrite matches_chars_Lang. unfold coordShape.
  rewrite Lang_seq_inv. split.
  - intros (t1 & s1 & -> & H1 & H).
    apply Lang_seq_inv in H as (cm & s2 & -> & Hcm & H).
    apply Lang_seq_inv in H as (ws & t2 & -> & Hws & H2).
    inversion Hcm; subst. apply Lang_star_class in Hws.
    apply Lang_numberShape in H1 as (n1 & Hn1 & ->).
    apply Lang_numberShape in H2 as (n2 & Hn2 & ->).
    now exists n1, ws, n2.
  - intros (n1 & ws & n2 & Hn1 & Hws & Hn2 & ->).
    exists (numeralText n1), (","%char :: ws ++ numeralText n2).
    split; [reflexivity|]. split; [apply Lang_numberShape; eauto|].
    apply (Lang_seq _ _ [","%char]); [constructor|].
    constructor; [now apply Lang_star_class | apply Lang_numberShape; eauto].
Qed.
End Shape.

(** ** Characters, [split] and [trim] *)

Section Strings.
Implicit Types (s ws ds : list ascii) (c : ascii).

Lemma isDigit_cases c :
  JS.isDigit c = true ->
  c ∈ list_ascii_of_string "0123456789".
Proof.
  destruct c as [[] [] [] [] [] [] [] []]; try discriminate; intros _;
    simpl; repeat first [apply list_elem_of_here | apply list_elem_of_further].
Qed.

(** What the classes exclude, by running through the ten digits. *)
Ltac by_digits H :=
  apply isDigit_cases in H; simpl in H;
  repeat match type of H with
         | _ ∈ _ :: _ => apply elem_of_cons in H as [-> | H]
         | _ ∈ [] => apply elem_of_nil in H; destruct H
         end;
  try reflexivity; try discriminate.

Lemma digit_not_white c : JS.isDigit c = true -> JS.isWhiteSpace c = false.
Proof. intros H. by_digits H. Qed.

Lemma digit_not_comma c : JS.isDigit c = true -> c ≠ ","%char.
Proof. intros H. by_digits H. Qed.

Lemma digit_not_sign c :
  JS.isDigit c = true -> c ≠ "-"%char /\ c ≠ "+"%char /\ c ≠ "."%char /\ c ≠ "I"%char.
Proof. intros H. by_digits H; repeat split; discriminate. Qed.

Lemma white_not_comma c : JS.isWhiteSpace c = true -> c ≠ ","%char.
Proof. intros H ->. discriminate. Qed.

Lemma split_chars_nonempty sep s : JS.split_chars sep s ≠ [].
Proof.
  induction s as [|c s IH]; simpl; [discriminate|].
  destruct (Ascii.eqb c sep); [discriminate|].
  now destruct (JS.split_chars sep s).
Qed.

Lemma split_chars_nosep sep s :
  Forall (fun c => c ≠ sep) s -> JS.split_chars sep s = [s].
Proof.
  induction 1 as [|c s Hc _ IH]; simpl; [reflexivity|].
  apply Ascii.eqb_neq in Hc. now rewrite Hc, IH.
Qed.

Lemma split_chars_app sep s1 s2 :
  Forall (fun c => c ≠ sep) s1 ->
  JS.split_chars sep (s1 ++ sep :: s2) = s1 :: JS.split_chars sep s2.
Proof.
  induction 1 as [|c s Hc _ IH]; simpl.
  - now rewrite Ascii.eqb_refl.
  - apply Ascii.eqb_neq in Hc. now rewrite Hc, IH.
Qed.

Lemma trimStart_chars_id s :
  Forall (fun c => JS.isWhiteSpace c = false) s -> JS.trimStart_chars s = s.
Proof. destruct 1 as [|c s Hc _]; simpl; [reflexivity | now rewrite Hc]. Qed.

Lemma trimStart_chars_app ws s :
  allWhiteSpace ws -> JS.trimStart_chars (ws ++ s) = JS.trimStart_chars s.
Proof. induction 1 as [|c ws Hc _ IH]; simpl; [reflexivity | now rewrite Hc]. Qed.

Lemma trimEnd_chars_id s :
  Forall (fun c => JS.isWhiteSpace c = false) s -> JS.trimEnd_chars s = s.
Proof.
  intros Hs. unfold JS.trimEnd_chars.
  rewrite trimStart_chars_id by now apply Forall_rev.
  apply rev_involutive.
Qed.

Lemma trim_chars_app ws s :
  allWhiteSpace ws -> Forall (fun c => JS.isWhiteSpace c = false) s ->
  JS.trim_chars (ws ++ s) = s.
Proof.
  intros Hws Hs. unfold JS.trim_chars.
  now rewrite trimStart_chars_app, trimStart_chars_id, trimEnd_chars_id.
Qed.

Lemma spanDigits_app ds s :
  allDigits ds ->
  head s = None \/ (exists c, head s = Some c /\ JS.isDigit c = false) ->
  JS.spanDigits (ds ++ s) = (ds, s).
Proof.
  intros Hds Hs. induction Hds as [|d ds Hd _ IH]; simpl.
  - destruct s as [|c s]; [reflexivity|].
    destruct Hs as [Hs | (c' & Hc' & Hc)]; [discriminate|].
    injection Hc' as ->. simpl. now rewrite Hc.
  - now rewrite Hd, IH.
Qed.

(** What [spanDigits] returns, in general. *)
Lemma spanDigits_spec s ds r :
  JS.spanDigits s = (ds, r) ->
  s = ds ++ r /\ allDigits ds /\
  (head r = None \/ exists c, head r = Some c /\ JS.isDigit c = false).
Proof.
  revert ds r. induction s as [|c s IH]; simpl; intros ds r H.
  - injection H as <- <-. repeat split; [constructor | now left].
  - destruct (JS.isDigit c) eqn:Ec.
    + destruct (JS.spanDigits s) as [ds' r'] eqn:E. injection H as <- <-.
      destruct (IH ds' r' eq_refl) as (-> & Hds & Hr).
      repeat split; [now constructor | exact Hr].
    + injection H as <- <-. repeat split; [constructor|]. right. eauto.
Qed.
End Strings.

(** ** Rounding never yields NaN *)

Section Rounding.
Variables prec emax : Z.

Lemma shr_1_nonneg mrs : 0 <= shr_m mrs -> 0 <= shr_m (shr_1 mrs).
Proof.
  destruct mrs as [m r s0]; simpl.
  destruct m as [|[p|p|]|p]; simpl; intros H; try lia.
Qed.

Lemma iter_pos_invariant {A} (P : A -> Prop) (f : A -> A) :
  (forall x, P x -> P (f x)) -> forall p x, P x -> P (SpecFloat.iter_pos f p x).
Proof.
  intros Hf. induction p as [p IH|p IH|]; simpl; intros x Hx; auto.
Qed.

Lemma shr_fexp_nonneg m e l :
  0 <= m -> 0 <= shr_m (shr_fexp prec emax m e l).1.
Proof.
  intros Hm. unfold shr_fexp, shr.
  assert (H0 : 0 <= shr_m (shr_record_of_loc m l))
    by (destruct l as [|[]]; exact Hm).
  destruct (_ - e) as [|p|p]; simpl; try exact H0.
  apply (iter_pos_invariant (fun mrs => 0 <= shr_m mrs)); [|exact H0].
  apply shr_1_nonneg.
Qed.

Lemma round_nearest_even_nonneg m l : 0 <= m -> 0 <= round_nearest_even m l.
Proof.
  intros Hm. destruct l as [|[]]; simpl; try lia.
  destruct (Z.even m); lia.
Qed.

Lemma binary_round_aux_not_nan sx mx ex lx :
  0 <= mx -> binary_round_aux prec emax sx mx ex lx ≠ S754_nan.
Proof.
  intros Hm. unfold binary_round_aux.
  pose proof (shr_fexp_nonneg mx ex lx Hm) as H1.
  destruct (shr_fexp prec emax mx ex lx) as [mrs' e']. simpl in H1.
  pose proof (shr_fexp_nonneg
                (round_nearest_even (shr_m mrs') (loc_of_shr_record mrs'))
                e' loc_Exact (round_nearest_even_nonneg _ _ H1)) as H2.
  destruct (shr_fexp prec emax _ e' loc_Exact) as [mrs'' e'']. simpl in H2.
  destruct (shr_m mrs'') as [|p|p]; [discriminate | | lia].
  now destruct (e'' <=? emax - prec).
Qed.

Lemma binary_round_not_nan sx mx ex :
  binary_round prec emax sx mx ex ≠ S754_nan.
Proof.
  unfold binary_round. destruct (shl_align _ _ _) as [mz ez].
  now apply binary_round_aux_not_nan.
Qed.
End Rounding.

Lemma roundDecimal_not_nan neg m e : JS.roundDecimal neg m e ≠ S754_nan.
Proof.
  unfold JS.roundDecimal. destruct m as [|p|p]; try discriminate.
  destruct (0 <=? e) eqn:He; [apply binary_round_not_nan|].
  apply Z.leb_gt in He.
  unfold SFdiv_core_binary.
  set (m' := match _ - _ with Z0 => _ | Zpos _ => _ | Zneg _ => _ end).
  assert (Hm' : 0 <= m').
  { subst m'. destruct (_ - _); try lia. apply Z.shiftl_nonneg. lia. }
  assert (Hd : 0 < 10 ^ (- e)) by (apply Z.pow_pos_nonneg; lia).
  pose proof (Z.div_pos m' (10 ^ (- e)) Hm' Hd) as Hq.
  unfold Z.div in Hq. destruct (Z.div_eucl m' (10 ^ (- e))) as [q r].
  now apply binary_round_aux_not_nan.
Qed.

(** ** [parseFloat] *)

Section ParseFloat.
Implicit Types (s ws ds : list ascii) (c : ascii) (n : Numeral).

Lemma numeralText_not_white n :
  wellFormed n -> Forall (fun c => JS.isWhiteSpace c = false) (numeralText n).
Proof.
  intros (_ & Hip & Hfp). unfold numeralText, fractionDigits in *.
  assert (Hd : forall ds, allDigits ds ->
                 Forall (fun c => JS.isWhiteSpace c = false) ds).
  { intros ds Hds. eapply Forall_impl; [exact Hds|]. apply digit_not_white. }
  repeat apply Forall_app_2; auto.
  - destruct (negative n); repeat constructor.
  - destruct (fraction n) as [fp|]; simpl in *; repeat constructor. auto.
Qed.

Lemma numeralText_no_comma n :
  wellFormed n -> Forall (fun c => c ≠ ","%char) (numeralText n).
Proof.
  intros (_ & Hip & Hfp). unfold numeralText, fractionDigits in *.
  assert (Hd : forall ds, allDigits ds -> Forall (fun c => c ≠ ","%char) ds).
  { intros ds Hds. eapply Forall_impl; [exact Hds|]. apply digit_not_comma. }
  repeat apply Forall_app_2; auto.
  - destruct (negative n); repeat constructor. discriminate.
  - destruct (fraction n) as [fp|]; simpl in *; repeat constructor;
      [discriminate | auto].
Qed.

Lemma scanSign_digit d s :
  JS.isDigit d = true -> JS.scanSign (d :: s) = (false, d :: s).
Proof.
  intros Hd. destruct (digit_not_sign d Hd) as (Hm & Hp & _).
  unfold JS.scanSign.
  apply Ascii.eqb_neq in Hm, Hp. now rewrite Hm, Hp.
Qed.

Lemma isPrefix_Infinity_false c s :
  c ≠ "I"%char -> JS.isPrefix (list_ascii_of_string "Infinity") (c :: s) = false.
Proof.
  intros Hc. apply bool_decide_eq_false_2. simpl. intros [= E]. now apply Hc.
Qed.

(** On the text of a numeral, [parseFloat] consumes everything and returns
    the value of the numeral. *)
Lemma parseFloat_chars_numeral n :
  wellFormed n -> JS.parseFloat_chars (numeralText n) = numeralValue n.
Proof.
  intros Hn. pose proof (numeralText_not_white n Hn) as Hw.
  destruct Hn as (Hne & Hip & Hfp).
  unfold JS.parseFloat_chars. rewrite trimStart_chars_id by exact Hw. clear Hw.
  destruct n as [neg ip frac].
  unfold numeralText, numeralValue, fractionDigits in *. simpl in *.
  destruct ip as [|d ip]; [contradiction|].
  pose proof (Forall_inv Hip) as Hd. simpl in Hd.
  destruct (digit_not_sign d Hd) as (_ & _ & _ & HI).
  set (tail := match frac with Some fp => "."%char :: fp | None => [] end).
  assert (JS.scanSign ((if neg then ["-"%char] else []) ++ (d :: ip) ++ tail)
          = (neg, (d :: ip) ++ tail)) as ->.
  { destruct neg; [reflexivity|]. now apply scanSign_digit. }
  cbv beta iota.
  change ((d :: ip) ++ tail) with (d :: (ip ++ tail)) at 1.
  rewrite isPrefix_Infinity_false by exact HI.
  rewrite spanDigits_app; [|exact Hip|].
  - cbv beta iota. subst tail. destruct frac as [fp|]; simpl in Hfp |- *.
    + rewrite <- (app_nil_r fp) at 1.
      rewrite spanDigits_app; [|exact Hfp|now left]. reflexivity.
    + rewrite app_nil_r. reflexivity.
  - subst tail. destruct frac as [fp|]; [right|now left].
    exists "."%char. split; reflexivity.
Qed.

Lemma trimStart_chars_spec s :
  exists ws, s = ws ++ JS.trimStart_chars s /\ allWhiteSpace ws.
Proof.
  induction s as [|c s (ws & E & Hws)]; simpl.
  - exists []. split; [reflexivity | constructor].
  - destruct (JS.isWhiteSpace c) eqn:Ec.
    + exists (c :: ws). split; [simpl; now f_equal | now constructor].
    + exists []. split; [reflexivity | constructor].
Qed.

Lemma scanSign_spec s :
  exists sign, s = sign ++ (JS.scanSign s).2 /\
    (sign = [] \/ sign = ["-"%char] \/ sign = ["+"%char]).
Proof.
  unfold JS.scanSign. destruct s as [|c s]; [exists []; auto|].
  destruct (Ascii.eqb_spec c "-") as [->|_]; [exists ["-"%char]; auto|].
  destruct (Ascii.eqb_spec c "+") as [->|_]; [exists ["+"%char]; auto|].
  exists []; auto.
Qed.

(** [parseFloat] succeeds exactly on the strings that begin with a
    literal. *)
Lemma parseFloat_not_NaN (s : string) :
  JS.parseFloat s ≠ JS.NaN <-> beginsWithLiteral s.
Proof.
  unfold JS.parseFloat, beginsWithLiteral, JS.parseFloat_chars.
  generalize (list_ascii_of_string s). clear s. intros s. split.
  - destruct (trimStart_chars_spec s) as (ws & Es & Hws).
    destruct (scanSign_spec (JS.trimStart_chars s)) as (sign & Eu & Hsign).
    destruct (JS.scanSign (JS.trimStart_chars s)) as [neg u]. simpl in Eu.
    intros H. exists ws, sign.
    cut (exists body rest, u = body ++ rest /\ literalStart body).
    { intros (body & rest & -> & Hb). exists body, rest.
      split; [now rewrite Es at 1; rewrite Eu|]. auto. }
    clear Es Eu Hws Hsign. unfold JS.isPrefix in H.
    destruct (decide (take (length (list_ascii_of_string "Infinity")) u
                      = list_ascii_of_string "Infinity")) as [E|E].
    { exists (list_ascii_of_string "Infinity"), (drop 8 u).
      split; [|now left]. rewrite <- E at 1. symmetry. apply take_drop. }
    rewrite (bool_decide_eq_false_2 _ E) in H.
    destruct (JS.spanDigits u) as [ip r] eqn:Eip.
    apply spanDigits_spec in Eip as (-> & Hip & Hr).
    destruct ip as [|d ip].
    + unfold JS.spanFraction in H. destruct r as [|c r]; [now destruct H|].
      destruct (Ascii.eqb_spec c ".") as [->|_]; [|now destruct H].
      destruct (JS.spanDigits r) as [fp r'] eqn:Efp.
      apply spanDigits_spec in Efp as (-> & Hfp & _).
      destruct fp as [|d fp]; [now destruct H|].
      exists ["."%char; d], (fp ++ r'). split; [reflexivity|].
      right; right. exists d. split; [now inversion Hfp | reflexivity].
    + exists [d], (ip ++ r). split; [reflexivity|].
      right; left. exists d. split; [now inversion Hip | reflexivity].
  - intros (ws & sign & body & rest & -> & Hws & Hsign & Hbody).
    rewrite trimStart_chars_app by exact Hws.
    assert (Hhead : exists c t, body ++ rest = c :: t /\
              JS.isWhiteSpace c = false /\ c ≠ "-"%char /\ c ≠ "+"%char).
    { destruct Hbody as [-> | [(d & Hd & ->) | (d & Hd & ->)]];
        eexists _, _; (split; [reflexivity|]).
      - repeat split; discriminate.
      - destruct (digit_not_sign d Hd) as (? & ? & _).
        repeat split; auto using digit_not_white.
      - repeat split; discriminate. }
    destruct Hhead as (c & t & Ect & Hcw & Hcm & Hcp).
    assert (JS.scanSign (JS.trimStart_chars (sign ++ body ++ rest))
            = (bool_decide (sign = ["-"%char]), body ++ rest)) as ->.
    { apply Ascii.eqb_neq in Hcm, Hcp.
      destruct Hsign as [-> | [-> | ->]]; simpl; rewrite ?Ect; simpl;
        rewrite ?Hcw; simpl; rewrite ?Hcm, ?Hcp; reflexivity. }
    cbv beta iota. clear c t Ect Hcw Hcm Hcp.
    destruct Hbody as [-> | [(d & Hd & ->) | (d & Hd & ->)]].
    + discriminate.
    + destruct (digit_not_sign d Hd) as (_ & _ & _ & HI).
      change ([d] ++ rest) with (d :: rest).
      rewrite isPrefix_Infinity_false by exact HI.
      simpl. rewrite Hd. destruct (JS.spanDigits rest) as [ip r].
      destruct (JS.spanFraction r) as [fp r']. simpl.
      apply roundDecimal_not_nan.
    + change (["."%char; d] ++ rest) with ("."%char :: d :: rest).
      rewrite isPrefix_Infinity_false by discriminate.
      simpl. rewrite Hd. destruct (JS.spanDigits rest) as [fp r'].
      simpl. apply roundDecimal_not_nan.
Qed.
End ParseFloat.

(** ** The Coordinate Parser *)

Section Parser.
Implicit Types (input : string) (n : Numeral).

Lemma isNaN_Some (v : JS.number) : JS.isNaN (Some v) = false <-> v ≠ JS.NaN.
Proof.
  unfold JS.NaN. destruct v; simpl; split; intros H; try reflexivity;
    try discriminate; try (intros [=]); now destruct H.
Qed.

Lemma parse_piece_numeral ws n :
  allWhiteSpace ws -> wellFormed n ->
  JS.parseFloat (JS.trim (string_of_list_ascii (ws ++ numeralText n)))
  = numeralValue n.
Proof.
  intros Hws Hn. unfold JS.parseFloat, JS.trim.
  rewrite !list_ascii_of_string_of_list_ascii.
  rewrite trim_chars_app by auto using numeralText_not_white.
  now apply parseFloat_chars_numeral.
Qed.

Lemma numeralValue_not_NaN n : numeralValue n ≠ JS.NaN.
Proof. apply roundDecimal_not_nan. Qed.

(** An input of the shape is split at its comma, and each half is read as
    the numeral it is. *)
Lemma coordinateParser_shape input :
  JS.matches coordShape input = true ->
  exists n1 ws n2,
    wellFormed n1 /\ allWhiteSpace ws /\ wellFormed n2 /\
    list_ascii_of_string input =
      numeralText n1 ++ ","%char :: ws ++ numeralText n2 /\
    coordinateParser input = Some (numeralValue n1, numeralValue n2).
Proof.
  intros H. apply matches_coordShape in H as (n1 & ws & n2 & Hn1 & Hws & Hn2 & E).
  exists n1, ws, n2. repeat (split; [assumption|]).
  unfold coordinateParser, JS.split. rewrite E.
  rewrite split_chars_app by now apply numeralText_no_comma.
  rewrite split_chars_nosep.
  2:{ apply Forall_app_2; [|now apply numeralText_no_comma].
      eapply Forall_impl; [exact Hws|]. apply white_not_comma. }
  simpl.
  pose proof (parse_piece_numeral [] n1 (Forall_nil_2 _) Hn1) as E1.
  simpl in E1. rewrite E1, (parse_piece_numeral ws n2) by assumption.
  pose proof (numeralValue_not_NaN n1) as N1.
  pose proof (numeralValue_not_NaN n2) as N2.
  destruct (numeralValue n1), (numeralValue n2);
    try reflexivity; now (destruct N1 || destruct N2).
Qed.

(** InvalidInput, in general: a piece is missing, or one of the first two
    pieces, trimmed, does not begin with a literal. *)
Lemma coordinateParser_None input :
  coordinateParser input = None <->
  ~ exists p0 p1 rest,
      JS.split "," input = p0 :: p1 :: rest /\
      beginsWithLiteral (JS.trim p0) /\ beginsWithLiteral (JS.trim p1).
Proof.
  unfold coordinateParser.
  destruct (JS.split "," input) as [|p0 [|p1 rest]]; cbn -[JS.isNaN].
  - split; [|reflexivity]. intros _ (? & ? & ? & [=] & _).
  - split; [|reflexivity]. intros _ (? & ? & ? & [=] & _).
  - pose proof (parseFloat_not_NaN (JS.trim p0)) as H0.
    pose proof (parseFloat_not_NaN (JS.trim p1)) as H1.
    rewrite <- isNaN_Some in H0, H1. split.
    + intros H (q0 & q1 & r & [= <- <- <-] & B0 & B1).
      apply H0 in B0. apply H1 in B1. rewrite B0, B1 in H. discriminate H.
    + intros H.
      destruct (JS.isNaN (Some (JS.parseFloat (JS.trim p0)))); [reflexivity|].
      destruct (JS.isNaN (Some (JS.parseFloat (JS.trim p1)))); [reflexivity|].
      destruct H. exists p0, p1, rest. split; [reflexivity|].
      split; [apply H0 | apply H1]; reflexivity.
Qed.

(** C2, as the code has it.  An input of the shape of line 99 yields the
    values of its two numerals.  InvalidInput is signalled exactly when
    the input has no second comma-separated piece or one of its first two
    pieces, trimmed, does not begin with a decimal literal. *)
Theorem coordinateParser_spec :
  (forall input,
     JS.matches coordShape input = true ->
     exists n1 ws n2,
       wellFormed n1 /\ allWhiteSpace ws /\ wellFormed n2 /\
       list_ascii_of_string input =
         numeralText n1 ++ ","%char :: ws ++ numeralText n2 /\
       coordinateParser input = Some (numeralValue n1, numeralValue n2)) /\
  (forall input,
     coordinateParser input = None <->
     ~ exists p0 p1 rest,
         JS.split "," input = p0 :: p1 :: rest /\
         beginsWithLiteral (JS.trim p0) /\ beginsWithLiteral (JS.trim p1)).
Proof. split; [apply coordinateParser_shape | apply coordinateParser_None]. Qed.
End Parser.

(** C2 as stated fails: [12abc,34] has not the shape, and is read as
    (12, 34). *)
Lemma coordinateParser_accepts_other_shapes :
  JS.matches coordShape "12abc,34" = false /\
  coordinateParser "12abc,34" = Some (JS.ofZ 12, JS.ofZ 34).
Proof. split; vm_compute; reflexivity. Qed.

(** The input [40.7128, -74.0060] of the specification. *)
Example handleShow_new_york :
  let st := setCoords "40.7128, -74.0060" session0 in
  JS.matches coordShape (coords st) = true /\
  lat (handleShow st).1 = Some (JS.roundDecimal false 407128 (-4)) /\
  lon (handleShow st).1 = Some (JS.roundDecimal true 74006 (-3)) /\
  (handleShow st).2 = [] /\ (searchPlaces st).2 = [].
Proof. vm_compute. repeat split; reflexivity. Qed.

Lemma coordinateParser_spec_witness :
  exists n1 ws n2,
    wellFormed n1 /\ allWhiteSpace ws /\ wellFormed n2 /\
    list_ascii_of_string "40.7128, -74.0060" =
      numeralText n1 ++ ","%char :: ws ++ numeralText n2 /\
    coordinateParser "40.7128, -74.0060" =
      Some (numeralValue n1, numeralValue n2).
Proof.
  apply (proj1 coordinateParser_spec "40.7128, -74.0060").
  vm_compute. reflexivity.
Defined.

(** ** The built-ins on known values *)

Example parseFloat_samples :
  JS.parseFloat "  12abc" = JS.ofZ 12 /\
  JS.parseFloat "-.5e1" = JS.ofZ (-5) /\
  JS.parseFloat "1e400" = S754_infinity false /\
  JS.parseFloat "-0" = S754_zero true /\
  JS.parseFloat ".e1" = JS.NaN /\
  JS.parseFloat "0.1" = S754_finite false 7205759403792794 (-56).
Proof. vm_compute. repeat split; reflexivity. Qed.

Example Number_toString_samples :
  JS.Number_toString (JS.parseFloat "40.7128") = "40.7128" /\
  JS.Number_toString (JS.parseFloat "-74.0060") = "-74.006" /\
  JS.Number_toString (JS.parseFloat "0.1") = "0.1" /\
  JS.Number_toString (JS.parseFloat "1e21") = "1e+21" /\
  JS.Number_toString (JS.parseFloat "123456789012345678901") =
    "123456789012345680000" /\
  JS.Number_toString (JS.parseFloat "0.000001") = "0.000001" /\
  JS.Number_toString (JS.parseFloat "0.0000001") = "1e-7" /\
  JS.Number_toString (JS.parseFloat "5e-324") = "5e-324" /\
  JS.Number_toString (JS.parseFloat "-0") = "0".
Proof. vm_compute. repeat split; reflexivity. Qed.

(** ** Show on Map and place search *)

Section Input.
Implicit Types (st : AppState) (input : string).

(** [handleShow] is the parser followed by the decision. *)
Lemma handleShow_coordinateParser st :
  handleShow st =
  match coordinateParser (coords st) with
  | Some (latitude, longitude) =>
      (st |> setLat (Some latitude) |> setLon (Some longitude)
          |> setShowSuggestions false, [])
  | None => (st, [alert invalidCoordinates])
  end.
Proof.
  unfold handleShow, coordinateParser.
  destruct (_ !! 0%nat) as [latitude|], (_ !! 1%nat) as [longitude|];
    try reflexivity.
  - now destruct (_ && _).
  - simpl. now rewrite andb_false_r.
Qed.

(** C9. When the parser signals InvalidInput, "Show on Map" alerts the
    user and the state, focus location included, is what it was. *)
Theorem handleShow_invalid st :
  coordinateParser (coords st) = None ->
  handleShow st = (st, [alert invalidCoordinates]).
Proof. intros Hp. now rewrite handleShow_coordinateParser, Hp. Qed.

(** C5. A query whose trimmed length is below 3, or that has the shape
    of a coordinate pair (the pattern of line 99), clears the suggestions
    and causes no effect at all: no request is sent. *)
Theorem searchPlaces_quiet st :
  (String.length (JS.trim (coords st)) < 3)%nat \/
  JS.matches coordShape (coords st) = true ->
  searchPlaces st = (setSuggestions [] st, []) /\
  suggestions (searchPlaces st).1 = [] /\
  (forall url, fetch url ∉ (searchPlaces st).2).
Proof.
  intros H.
  assert (E : searchPlaces st = (setSuggestions [] st, [])).
  { unfold searchPlaces. destruct H as [H|H].
    - apply Nat.ltb_lt in H. now rewrite H.
    - rewrite H. now destruct (_ <? _)%nat. }
  rewrite E. repeat split. intros url. apply not_elem_of_nil.
Qed.
End Input.

Lemma handleShow_invalid_witness :
  coordinateParser (coords (setCoords "Tel Aviv" session3)) = None /\
  handleShow (setCoords "Tel Aviv" session3) =
    (setCoords "Tel Aviv" session3, [alert invalidCoordinates]).
Proof.
  assert (H : coordinateParser (coords (setCoords "Tel Aviv" session3)) = None)
    by (vm_compute; reflexivity).
  split; [exact H|].
  exact (handleShow_invalid (setCoords "Tel Aviv" session3) H).
Defined.

Lemma searchPlaces_quiet_witness :
  (searchPlaces (setCoords "ab" session0)).2 = [] /\
  (searchPlaces (setCoords "40.7128, -74.0060" session0)).2 = [].
Proof.
  split.
  - refine (f_equal snd
      (proj1 (searchPlaces_quiet (setCoords "ab" session0) (or_introl _)))).
    vm_compute. lia.
  - refine (f_equal snd
      (proj1 (searchPlaces_quiet (setCoords "40.7128, -74.0060" session0)
                (or_intror _)))).
    vm_compute. reflexivity.
Defined.

(** Typing [abc] does send a request, for at most 5 results. *)
Example searchPlaces_abc :
  searchPlaces (setCoords "abc" session0) =
    (setCoords "abc" session0, [fetch (nominatim_search "abc" 5)]).
Proof. vm_compute. reflexivity. Qed.

(** ** The render surface *)

Section SurfaceLifecycle.
Implicit Types (prev st : AppState) (sf : Surface.t) (bounds : Bbox.t).

(** A render that leaves [lat], [lon] and [savedCoords] alone leaves the
    surface alone. *)
Lemma commit_same_focus prev st bounds sf :
  lat prev = lat st -> lon prev = lon st ->
  commit prev st false bounds sf = sf.
Proof.
  intros Hlat Hlon. unfold commit.
  rewrite !bool_decide_eq_false_2 by (intros Hne; now apply Hne).
  reflexivity.
Qed.

Lemma mapRef_handleMapViewChange l bounds sf :
  Surface.mapRef (handleMapViewChange l bounds sf) = Surface.mapRef sf /\
  Surface.created (handleMapViewChange l bounds sf) = Surface.created sf /\
  Surface.removed (handleMapViewChange l bounds sf) = Surface.removed sf.
Proof.
  unfold handleMapViewChange.
  destruct (Surface.mapRef sf) eqn:E; simpl; rewrite ?E; repeat split.
Qed.

(** What the map effect does to a live surface when the focus location
    changes to another location: the cleanup removes the map, and the
    body, finding [mapRef.current] empty, builds a new one. *)
Lemma commit_moved_focus prev st fresh bounds sf map la lo :
  Surface.mapRef sf = Some map ->
  lat st = Some la -> lon st = Some lo -> geographic la lo ->
  lat prev ≠ lat st \/ lon prev ≠ lon st ->
  let sf' := commit prev st fresh bounds sf in
  Surface.mapRef sf' = Some (Surface.created sf) /\
  Surface.created sf' = S (Surface.created sf) /\
  Surface.removed sf' = Surface.removed sf ++ [map].
Proof.
  intros Hmap Hla Hlo _ Hmoved sf'. subst sf'. unfold commit.
  assert (bool_decide (lat prev ≠ lat st) || bool_decide (lon prev ≠ lon st)
            || fresh = true) as ->.
  { destruct Hmoved as [H|H]; rewrite (bool_decide_eq_true_2 _ H);
      [reflexivity | now rewrite orb_true_r]. }
  unfold initMap_cleanup. rewrite Hmap.
  unfold initMap. simpl. rewrite Hla, Hlo.
  unfold updateCenter. simpl. rewrite Hla, Hlo.
  set (sf1 := Surface.mk _ _ _ _ _ _).
  pose proof (mapRef_handleMapViewChange (savedCoords st) bounds sf1)
    as (E1 & E2 & E3).
  destruct fresh; [|now rewrite E1, E2, E3].
  unfold updateMarkers. rewrite E1.
  change (Surface.mapRef sf1) with (Some (Surface.created sf)). cbv iota.
  pose proof (mapRef_handleMapViewChange (savedCoords st) bounds
                (handleMapViewChange (savedCoords st) bounds sf1))
    as (F1 & F2 & F3).
  now rewrite F1, F2, F3, E1, E2, E3.
Qed.
End SurfaceLifecycle.

(** C3, on the code.  The first "Show on Map" builds the map 0 and the
    surface is Active.  Typing a new input changes nothing.  The second
    "Show on Map", for another location, runs the cleanup of the map
    effect: the refs are emptied, as they were before any map existed,
    and the map 0 is removed; the body of the effect then builds the map
    1.  The surface built first did not last until teardown. *)
Theorem surface_replaced_on_focus_change :
  lifecycle surface1 = Uninitialized /\
  lifecycle surface2 = Active 0 /\
  surface2' = surface2 /\
  Surface.mapRef (initMap_cleanup surface2') = None /\
  lifecycle surface2'' = Active 1 /\
  Surface.removed surface2'' = [0%nat] /\
  Surface.currentLocationMarkerRef (initMap_cleanup surface2') = None.
Proof. vm_compute. repeat split; reflexivity. Qed.

(** * Further properties of the component *)

(** ** The input *)

Section InputFurther.
Implicit Types (st : AppState) (input : string).

(** X1. The pattern of line 99 accepts exactly the texts made of a numeral,
    a comma, white space if any, and a numeral, where a numeral is an
    optional [-], one digit or more, and optionally a [.] followed by any
    number of digits. *)
Theorem coordShape_in_words input :
  JS.matches coordShape input = true <->
  exists n1 ws n2,
    wellFormed n1 /\ allWhiteSpace ws /\ wellFormed n2 /\
    list_ascii_of_string input =
      numeralText n1 ++ ","%char :: ws ++ numeralText n2.
Proof. apply matches_coordShape. Qed.

Lemma split_two_pieces (a b : list ascii) :
  Forall (fun c => c ≠ ","%char) a -> Forall (fun c => c ≠ ","%char) b ->
  JS.split "," (string_of_list_ascii (a ++ ","%char :: b))
  = [string_of_list_ascii a; string_of_list_ascii b].
Proof.
  intros Ha Hb. unfold JS.split. rewrite list_ascii_of_string_of_list_ascii.
  now rewrite split_chars_app, split_chars_nosep.
Qed.

(** X2. The input is split at every comma and only the first two pieces
    are read: what follows a second comma is ignored. *)
Theorem coordinateParser_first_two_pieces (a b rest : list ascii) :
  Forall (fun c => c ≠ ","%char) a -> Forall (fun c => c ≠ ","%char) b ->
  coordinateParser (string_of_list_ascii (a ++ ","%char :: b ++ ","%char :: rest))
  = coordinateParser (string_of_list_ascii (a ++ ","%char :: b)).
Proof.
  intros Ha Hb. unfold coordinateParser.
  rewrite (split_two_pieces a b Ha Hb).
  unfold JS.split. rewrite list_ascii_of_string_of_list_ascii.
  rewrite split_chars_app by exact Ha. rewrite split_chars_app by exact Hb.
  reflexivity.
Qed.

(** X3. An input without a comma is InvalidInput, whatever it holds: "Show
    on Map" alerts and changes nothing. *)
Theorem handleShow_no_comma st :
  Forall (fun c => c ≠ ","%char) (list_ascii_of_string (coords st)) ->
  coordinateParser (coords st) = None /\
  handleShow st = (st, [alert invalidCoordinates]).
Proof.
  intros Hc.
  assert (E : coordinateParser (coords st) = None).
  { unfold coordinateParser, JS.split. now rewrite split_chars_nosep. }
  split; [exact E|]. now rewrite handleShow_coordinateParser, E.
Qed.

(** X4. "Show on Map" either alerts and leaves the state as it is, or
    sets [lat] and [lon] together, to numbers that are not NaN, closes the
    panel and causes no effect. *)
Theorem handleShow_dichotomy st :
  handleShow st = (st, [alert invalidCoordinates]) \/
  exists latitude longitude,
    latitude ≠ JS.NaN /\ longitude ≠ JS.NaN /\
    handleShow st =
      (st |> setLat (Some latitude) |> setLon (Some longitude)
          |> setShowSuggestions false, []).
Proof.
  rewrite handleShow_coordinateParser.
  destruct (coordinateParser (coords st)) as [[la lo]|] eqn:E; [right|now left].
  exists la, lo. unfold coordinateParser in E.
  destruct (_ !! 0%nat) as [a|]; [|discriminate].
  destruct (_ !! 1%nat) as [b|]; [|discriminate].
  destruct (JS.isNaN (Some a)) eqn:Ea; [discriminate|].
  destruct (JS.isNaN (Some b)) eqn:Eb; [discriminate|].
  injection E as <- <-. apply isNaN_Some in Ea, Eb. auto.
Qed.

(** X5. Pressing "Show on Map" again on the same input gives the same
    state and the same effects, and the render that follows leaves the
    surface alone. *)
Theorem handleShow_again st :
  let st' := (handleShow st).1 in
  handleShow st' = (st', (handleShow st).2) /\
  forall bounds sf, commit st' (handleShow st').1 false bounds sf = sf.
Proof.
  intros st'.
  assert (E : handleShow st' = (st', (handleShow st).2)).
  { subst st'. rewrite !handleShow_coordinateParser.
    destruct (coordinateParser (coords st)) as [[la lo]|] eqn:E; simpl;
      rewrite E; [|reflexivity]. now destruct st. }
  split; [exact E|]. intros bounds sf. rewrite E. simpl.
  now apply commit_same_focus.
Qed.
End InputFurther.

Lemma coordinateParser_first_two_pieces_witness :
  coordinateParser "1,2,3" = coordinateParser "1,2".
Proof.
  apply (coordinateParser_first_two_pieces
           (list_ascii_of_string "1") (list_ascii_of_string "2")
           (list_ascii_of_string "3"));
    repeat constructor; discriminate.
Defined.

Lemma handleShow_no_comma_witness :
  handleShow (setCoords "Jerusalem" session2) =
    (setCoords "Jerusalem" session2, [alert invalidCoordinates]).
Proof.
  apply (handleShow_no_comma (setCoords "Jerusalem" session2)).
  apply (bool_decide_unpack _). vm_compute. exact I.
Defined.

(** ** The collection *)

Section CollectionFurther.
Implicit Types (st : AppState) (id : string) (p : SavedCoord.t).

Lemma delete_filter id st :
  savedCoords (handleDeleteCoord id st)
  = filter (fun coord => SavedCoord.id coord ≠ id) (savedCoords st).
Proof. reflexivity. Qed.

(** X6. After a delete no point with that id is left, however many there
    were; the other points are all there, in the order they had. *)
Theorem handleDeleteCoord_removes id st :
  (id ∉ ids (savedCoords (handleDeleteCoord id st))) /\
  (savedCoords (handleDeleteCoord id st) `sublist_of` savedCoords st) /\
  forall p, p ∈ savedCoords (handleDeleteCoord id st) <->
            p ∈ savedCoords st /\ SavedCoord.id p ≠ id.
Proof.
  rewrite delete_filter. split; [|split].
  - unfold ids. intros Hin. apply list_elem_of_fmap in Hin as (p & -> & Hp).
    apply list_elem_of_filter in Hp as [Hp _]. now apply Hp.
  - apply sublist_filter.
  - intros p. rewrite list_elem_of_filter. tauto.
Qed.

(** X7. Deleting an id that is not in the collection changes nothing. *)
Theorem handleDeleteCoord_absent id st :
  id ∉ ids (savedCoords st) -> handleDeleteCoord id st = st.
Proof.
  intros Hid. unfold handleDeleteCoord, setSavedCoords.
  rewrite (delete_absent _ _ Hid). now destruct st.
Qed.

(** X8. Deletes can be done in any order, and a delete done twice is the
    delete done once. *)
Theorem handleDeleteCoord_commute (a b : string) st :
  handleDeleteCoord a (handleDeleteCoord b st)
  = handleDeleteCoord b (handleDeleteCoord a st) /\
  handleDeleteCoord a (handleDeleteCoord a st) = handleDeleteCoord a st.
Proof.
  unfold handleDeleteCoord, setSavedCoords. simpl. split; f_equal.
  - rewrite !list_filter_filter. apply list_filter_iff. tauto.
  - rewrite list_filter_filter. apply list_filter_iff. tauto.
Qed.

(** X9. With a focus location and a non-empty input, a save appends one
    point, and navigating to that point, from any later state, brings
    back the focus location and the input text of the save. *)
Theorem save_then_navigate (now : JS.number) st latitude longitude :
  lat st = Some latitude -> lon st = Some longitude -> coords st ≠ "" ->
  exists p,
    savedCoords (handleSaveCoord now st) = savedCoords st ++ [p] /\
    forall st',
      lat (handleNavigateToCoord p st') = Some latitude /\
      lon (handleNavigateToCoord p st') = Some longitude /\
      coords (handleNavigateToCoord p st') = coords st.
Proof.
  intros Hlat Hlon Hc. unfold handleSaveCoord. rewrite Hlat, Hlon.
  rewrite bool_decide_eq_false_2 by exact Hc.
  eexists. split; [reflexivity|]. intros st'.
  unfold handleNavigateToCoord. simpl.
  now rewrite bool_decide_eq_false_2 by exact Hc.
Qed.

(** Without a focus location a save does nothing; with one, the
    collection grows by exactly one point, placed last, that carries the
    focus location and the id made from the clock. *)
Lemma handleSaveCoord_size (now : JS.number) st :
  (lat st = None \/ lon st = None -> handleSaveCoord now st = st) /\
  (forall latitude longitude,
     lat st = Some latitude -> lon st = Some longitude ->
     length (savedCoords (handleSaveCoord now st))
       = S (length (savedCoords st)) /\
     exists p,
       last (savedCoords (handleSaveCoord now st)) = Some p /\
       SavedCoord.lat p = latitude /\ SavedCoord.lon p = longitude /\
       SavedCoord.id p = JS.Number_toString now /\
       SavedCoord.description p = None).
Proof.
  unfold handleSaveCoord. split.
  - intros [H|H]; rewrite H; [reflexivity|]. now destruct (lat st).
  - intros la lo -> ->. simpl. rewrite length_app. simpl.
    split; [lia|]. eexists. rewrite last_snoc. now repeat split.
Qed.

(** X10. Loading, saving and deleting touch the collection only: the
    input, the focus location, the suggestions, the panel and the cursor
    stay as they are. *)
Theorem collection_frame st :
  let same st' :=
    coords st' = coords st /\ lat st' = lat st /\ lon st' = lon st /\
    suggestions st' = suggestions st /\
    showSuggestions st' = showSuggestions st /\
    selectedIndex st' = selectedIndex st in
  (forall response, same (loadLocations response st).1) /\
  (forall now, same (handleSaveCoord now st)) /\
  (forall id, same (handleDeleteCoord id st)).
Proof.
  intros same. subst same. split; [|split].
  - intros [| ? | |?]; simpl; repeat split; reflexivity.
  - intros now. unfold handleSaveCoord.
    destruct (lat st) eqn:Ela, (lon st) eqn:Elo; simpl; rewrite ?Ela, ?Elo;
      repeat split; reflexivity.
  - intros id. simpl. repeat split; reflexivity.
Qed.

(** X11. After a successful load every bundled point has its id in the
    collection, and the collection has grown by at most the size of the
    dataset. *)
Theorem loadLocations_complete (locations : list LocationData.t) st :
  let st' := (loadLocations (json_ok locations) st).1 in
  (forall r, r ∈ locations ->
     SavedCoord.id (toSavedCoord r) ∈ ids (savedCoords st')) /\
  (length (savedCoords st) <= length (savedCoords st')
     <= length (savedCoords st) + length locations)%nat.
Proof.
  intros st'. subst st'.
  rewrite savedCoords_loadLocations_ok, addLocations_app. split.
  - intros r Hr. rewrite ids_app.
    destruct (decide (SavedCoord.id (toSavedCoord r) ∈ ids (savedCoords st)))
      as [Hin|Hout]; apply elem_of_app; [now left|right].
    apply elem_of_ids, list_elem_of_filter. split; [exact Hout|].
    now apply list_elem_of_fmap_2.
  - rewrite length_app.
    pose proof (length_filter (fun coord => SavedCoord.id coord ∉ ids (savedCoords st))
                  (toSavedCoord <$> locations)) as Hl.
    rewrite length_fmap in Hl. lia.
Qed.

(** X12. When the dataset cannot be had (the request fails, the answer is
    not ok, or it is not JSON) the state is left as it is and one error is
    logged, nothing else. *)
Theorem loadLocations_failure (response : Fetched (list LocationData.t)) st :
  (forall locations, response ≠ json_ok locations) ->
  (loadLocations response st).1 = st /\
  exists msg, (loadLocations response st).2 = [console_error msg].
Proof.
  intros Hr. destruct response as [| statusText | | locations];
    try (split; [reflexivity | eexists; reflexivity]).
  now destruct (Hr locations).
Qed.
End CollectionFurther.

Lemma handleDeleteCoord_absent_witness :
  handleDeleteCoord "location-20-10" session4 = session4.
Proof.
  apply (handleDeleteCoord_absent "location-20-10" session4).
  apply (bool_decide_unpack _). vm_compute. exact I.
Defined.

Lemma save_then_navigate_witness :
  exists p,
    savedCoords (handleSaveCoord (JS.ofZ 1700000000000) session2)
      = savedCoords session2 ++ [p] /\
    forall st',
      lat (handleNavigateToCoord p st') = Some (JS.ofZ 1) /\
      lon (handleNavigateToCoord p st') = Some (JS.ofZ 2) /\
      coords (handleNavigateToCoord p st') = coords session2.
Proof.
  apply (save_then_navigate (JS.ofZ 1700000000000) session2
           (JS.ofZ 1) (JS.ofZ 2)).
  - vm_compute. reflexivity.
  - vm_compute. reflexivity.
  - apply (bool_decide_unpack _). vm_compute. exact I.
Defined.

Lemma loadLocations_failure_witness :
  (loadLocations (response_not_ok "Not Found") session3).1 = session3 /\
  exists msg,
    (loadLocations (response_not_ok "Not Found") session3).2
      = [console_error msg].
Proof.
  apply (loadLocations_failure (response_not_ok "Not Found") session3).
  intros locations. discriminate.
Defined.

(** ** The keyboard and the panel *)

Section Keyboard.
Implicit Types (st : AppState) (key : string).

(** X13. ArrowDown and ArrowUp move the cursor by one and keep it between
    -1 and the last index of the list: ArrowDown stops at the last
    suggestion, ArrowUp goes from the first suggestion to -1 and stays
    there.  Nothing else changes, and the default action of the key is
    prevented. *)
Theorem arrows_keep_cursor_in_range st :
  -1 <= selectedIndex st < Z.of_nat (length (suggestions st)) ->
  let last := Z.of_nat (length (suggestions st)) - 1 in
  handleKeyDown "ArrowDown" st =
    handled (setSelectedIndex (Z.min (selectedIndex st + 1) last) st) true /\
  handleKeyDown "ArrowUp" st =
    handled (setSelectedIndex (Z.max (selectedIndex st - 1) (-1)) st) true /\
  -1 <= Z.min (selectedIndex st + 1) last < Z.of_nat (length (suggestions st)) /\
  -1 <= Z.max (selectedIndex st - 1) (-1) < Z.of_nat (length (suggestions st)).
Proof.
  intros Hc last. subst last. unfold handleKeyDown. simpl.
  repeat split; try lia.
  - destruct (Z.ltb_spec (selectedIndex st)
                (Z.of_nat (length (suggestions st)) - 1));
      do 2 f_equal; lia.
  - destruct (Z.ltb_spec 0 (selectedIndex st)); do 2 f_equal; lia.
Qed.

(** X14. Enter, with the cursor on a suggestion, selects it: the input
    shows its name, the focus location is read from its [lat] and [lon]
    texts, the panel closes and the list is emptied; the cursor stays
    where it was. *)
Theorem enter_selects_cursor st (index : nat) (place : Place.t) :
  selectedIndex st = Z.of_nat index ->
  suggestions st !! index = Some place ->
  exists st',
    handleKeyDown "Enter" st = handled st' true /\
    coords st' = Place.display_name place /\
    lat st' = Some (JS.parseFloat (Place.lat place)) /\
    lon st' = Some (JS.parseFloat (Place.lon place)) /\
    panelVisible st' = false /\ suggestions st' = [] /\
    selectedIndex st' = selectedIndex st /\
    savedCoords st' = savedCoords st.
Proof.
  intros Hi Hp. exists (handleSelectPlace place st).
  unfold handleKeyDown. simpl. rewrite Hi.
  assert ((0 <=? Z.of_nat index) = true) as -> by (apply Z.leb_le; lia).
  rewrite Nat2Z.id, Hp. now repeat split.
Qed.

(** X15. The cursor is not reset by a selection, while the list is
    emptied: a second Enter, before any new results arrive, finds no
    suggestion under the cursor and [handleSelectPlace] throws. *)
Theorem enter_twice_throws st (index : nat) (place : Place.t) :
  selectedIndex st = Z.of_nat index ->
  suggestions st !! index = Some place ->
  handleKeyDown "Enter" (handleSelectPlace place st) = threw_TypeError /\
  forall held,
    run [ev_keyDown "Enter"; ev_keyDown "Enter"] (mkDebounced st held)
    = (rerender (handleSelectPlace place st) (mkDebounced st held),
       [console_error uncaughtTypeError]).
Proof.
  intros Hi Hp.
  assert (E1 : handleKeyDown "Enter" st = handled (handleSelectPlace place st) true).
  { unfold handleKeyDown. simpl. rewrite Hi.
    assert ((0 <=? Z.of_nat index) = true) as -> by (apply Z.leb_le; lia).
    now rewrite Nat2Z.id, Hp. }
  assert (E2 : handleKeyDown "Enter" (handleSelectPlace place st) = threw_TypeError).
  { unfold handleKeyDown. simpl. rewrite Hi.
    assert ((0 <=? Z.of_nat index) = true) as -> by (apply Z.leb_le; lia).
    reflexivity. }
  split; [exact E2|]. intros held. simpl. rewrite E1. simpl. now rewrite E2.
Qed.

(** X16. Escape and a press outside the input and the panel both hide the
    panel and keep the list and the cursor; a press inside changes
    nothing; and when the input gets the focus again the panel is shown
    exactly if the list is not empty. *)
Theorem panel_hides_and_returns st :
  let hidden st' :=
    panelVisible st' = false /\ suggestions st' = suggestions st /\
    selectedIndex st' = selectedIndex st /\ coords st' = coords st in
  (exists st', handleKeyDown "Escape" st = handled st' false /\ hidden st' /\
     panelVisible (handleFocus st') = (0 <? length (suggestions st))%nat) /\
  hidden (handleClickOutside false false st) /\
  (forall inSuggestions inInput,
     inSuggestions || inInput = true ->
     handleClickOutside inSuggestions inInput st = st) /\
  panelVisible (handleFocus (handleClickOutside false false st))
    = (0 <? length (suggestions st))%nat.
Proof.
  intros hidden. subst hidden.
  destruct st as [c la lo sg sh si sv].
  unfold handleClickOutside, handleFocus, panelVisible, handleKeyDown.
  split; [|split; [|split]].
  - eexists. split; [reflexivity|]. destruct sg; simpl; now repeat split.
  - destruct sh, sg; simpl; now repeat split.
  - intros a b Hab. destruct a, b, sh, sg; try discriminate; reflexivity.
  - destruct sh, sg; reflexivity.
Qed.
End Keyboard.

Lemma arrows_keep_cursor_in_range_witness :
  handleKeyDown "ArrowDown" listing = handled (setSelectedIndex 1 listing) true /\
  handleKeyDown "ArrowDown" (setSelectedIndex 1 listing)
    = handled (setSelectedIndex 1 listing) true /\
  handleKeyDown "ArrowUp" listing = handled (setSelectedIndex (-1) listing) true.
Proof.
  assert (H0 : -1 <= selectedIndex listing
               < Z.of_nat (length (suggestions listing)))
    by (vm_compute; split; [discriminate | reflexivity]).
  assert (H1 : -1 <= selectedIndex (setSelectedIndex 1 listing)
               < Z.of_nat (length (suggestions (setSelectedIndex 1 listing))))
    by (vm_compute; split; [discriminate | reflexivity]).
  split; [|split].
  - exact (proj1 (arrows_keep_cursor_in_range listing H0)).
  - exact (proj1 (arrows_keep_cursor_in_range (setSelectedIndex 1 listing) H1)).
  - exact (proj1 (proj2 (arrows_keep_cursor_in_range listing H0))).
Defined.

Lemma enter_selects_cursor_witness :
  exists st',
    handleKeyDown "Enter" listing = handled st' true /\
    coords st' = "Tel Aviv, Israel" /\
    lat st' = Some (JS.parseFloat "32.0853") /\
    lon st' = Some (JS.parseFloat "34.7818") /\
    panelVisible st' = false /\ suggestions st' = [] /\
    selectedIndex st' = selectedIndex listing /\
    savedCoords st' = savedCoords listing.
Proof.
  apply (enter_selects_cursor listing 0 telAviv); reflexivity.
Defined.

Lemma enter_twice_throws_witness :
  handleKeyDown "Enter" (handleSelectPlace telAviv listing) = threw_TypeError.
Proof.
  apply (enter_twice_throws listing 0 telAviv); reflexivity.
Defined.

(** ** Sequences of events *)

Section Events.
Implicit Types (st : AppState) (d : Debounced) (e : Event) (es : list Event).

Lemma run_app es1 es2 d :
  run (es1 ++ es2) d =
  ((run es2 (run es1 d).1).1, (run es1 d).2 ++ (run es2 (run es1 d).1).2).
Proof.
  revert d. induction es1 as [|e es1 IH]; intros d; simpl.
  - now destruct (run es2 d).
  - rewrite IH. simpl. now rewrite app_assoc.
Qed.

Lemma handleShow_focus st : focus_kept_or_set st (handleShow st).1.
Proof.
  rewrite handleShow_coordinateParser.
  destruct (coordinateParser (coords st)) as [[la lo]|]; [right|left]; simpl; eauto.
Qed.

Lemma handleKeyDown_focus key st st' prevented :
  handleKeyDown key st = handled st' prevented -> focus_kept_or_set st st'.
Proof.
  unfold handleKeyDown.
  repeat match goal with
         | |- context [if ?b then _ else _] => destruct b
         end;
    try (intros [= <- _]; left; simpl; now split).
  destruct (_ !! _); [|discriminate].
  intros [= <- _]. right. simpl. eauto.
Qed.

Lemma react_focus e d : focus_kept_or_set (app d) (app (react e d).1).
Proof.
  unfold react.
  destruct e as [v | key | | a b | index | index | | now | id | index |
                 | response | response]; simpl.
  - left. now split.
  - destruct (handleKeyDown key (app d)) eqn:E; simpl; [|left; now split].
    eapply handleKeyDown_focus, E.
  - left. unfold handleFocus. now destruct (_ <? _)%nat.
  - left. unfold handleClickOutside. now destruct (_ && _).
  - left. now destruct (_ && _).
  - destruct (panelVisible (app d)), (suggestions (app d) !! index);
      simpl; try (left; now split). right. eauto.
  - apply handleShow_focus.
  - left. unfold handleSaveCoord.
    destruct (lat (app d)) eqn:Ela, (lon (app d)) eqn:Elo; simpl; now rewrite ?Ela, ?Elo.
  - left. now split.
  - destruct (savedCoords (app d) !! index); simpl; [right; eauto | left; now split].
  - left. unfold timeout. destruct (timer d); simpl; [|now split].
    unfold searchPlaces. simpl.
    destruct (_ <? _)%nat; [now split|]. now destruct (JS.matches _ _).
  - left. now destruct response.
  - left. now destruct response.
Qed.

Lemma run_focus es d : focus_kept_or_set (app d) (app (run es d).1).
Proof.
  revert d. induction es as [|e es IH]; intros d; simpl; [left; now split|].
  destruct (react_focus e d) as [[E1 E2]|[S1 S2]],
           (IH (react e d).1) as [[F1 F2]|[T1 T2]].
  - left. split; congruence.
  - right. now split.
  - right. rewrite F1, F2. now split.
  - right. now split.
Qed.

(** X17. Whatever the user does and whatever arrives, [lat] and [lon] are
    [null] together or set together; the map container and the save
    button, shown when both are set, are shown exactly when one is. *)
Theorem focus_set_together (saved : list SavedCoord.t) es :
  let st := app (run es (mounted (initialState saved))).1 in
  lat st = None <-> lon st = None.
Proof.
  intros st. subst st.
  destruct (run_focus es (mounted (initialState saved))) as [[-> ->]|[[? ->] [? ->]]].
  - reflexivity.
  - split; discriminate.
Qed.

(** X18. Once a focus location is set no event unsets it. *)
Theorem focus_never_unset es d :
  is_Some (lat (app d)) -> is_Some (lon (app d)) ->
  is_Some (lat (app (run es d).1)) /\ is_Some (lon (app (run es d).1)).
Proof.
  intros Hla Hlo. destruct (run_focus es d) as [[-> ->]|]; auto.
Qed.

(** *** The timer *)

Lemma rerender_timer_current st' d : timer_current d -> timer_current (rerender st' d).
Proof.
  intros Hd held. unfold rerender. simpl.
  destruct (decide (coords st' = coords (app d))) as [E|E].
  - rewrite bool_decide_eq_true_2 by exact E. rewrite E. apply Hd.
  - rewrite bool_decide_eq_false_2 by exact E. now intros [= <-].
Qed.

Lemma react_timer_current e d : timer_current d -> timer_current (react e d).1.
Proof.
  intros Hd. unfold react.
  destruct e as [v | key | | a b | index | index | | now | id | index |
                 | response | response]; simpl;
    try (now apply rerender_timer_current).
  - destruct (handleKeyDown key (app d)); simpl;
      [now apply rerender_timer_current | exact Hd].
  - destruct (_ && _); simpl; [now apply rerender_timer_current | exact Hd].
  - destruct (panelVisible (app d)), (suggestions (app d) !! index); simpl;
      try exact Hd. now apply rerender_timer_current.
  - destruct (savedCoords (app d) !! index); simpl;
      [now apply rerender_timer_current | exact Hd].
  - unfold timeout. destruct (timer d); simpl; [|exact Hd]. intros ? [=].
Qed.

(** X19. The text a pending timer holds is always the text of the input:
    every change of the input replaces the timer, so a search is never
    made for a text that is no longer shown. *)
Theorem timer_holds_current_text st es :
  forall held,
    timer (run es (mounted st)).1 = Some held ->
    held = coords (app (run es (mounted st)).1).
Proof.
  assert (H : forall es d, timer_current d -> timer_current (run es d).1).
  { clear. induction es as [|e es IH]; intros d Hd; simpl; [exact Hd|].
    now apply IH, react_timer_current. }
  apply H. intros held [= <-]. reflexivity.
Qed.

Lemma setCoords_own st : setCoords (coords st) st = st.
Proof. now destruct st. Qed.

Lemma timeout_mounted st :
  timeout (mounted st) = (mkDebounced (searchPlaces st).1 None, (searchPlaces st).2).
Proof.
  unfold timeout, mounted. simpl. rewrite setCoords_own.
  f_equal. f_equal. unfold searchPlaces.
  destruct (_ <? _)%nat; [now destruct st|].
  destruct (JS.matches _ _); now destruct st.
Qed.

Lemma run_changes st (vs : list string) :
  run (ev_change <$> vs) (mounted st)
  = (mounted (setCoords (default (coords st) (last vs)) st), []).
Proof.
  revert st. induction vs as [|v vs IH]; intros st; simpl.
  - now rewrite setCoords_own.
  - assert (rerender (setCoords v st) (mounted st) = mounted (setCoords v st)) as ->.
    { unfold rerender, mounted. simpl. f_equal.
      destruct (decide (v = coords st)) as [->|E].
      - now rewrite bool_decide_eq_true_2.
      - now rewrite bool_decide_eq_false_2. }
    rewrite IH. simpl. do 2 f_equal.
    destruct vs as [|w vs]; [reflexivity|].
    rewrite last_cons_cons.
    destruct (last (w :: vs)) eqn:E; [reflexivity|].
    now apply last_None in E.
Qed.

Lemma run_timeout_mounted st :
  run [ev_timeout] (mounted st)
  = (mkDebounced (searchPlaces st).1 None, (searchPlaces st).2).
Proof.
  unfold run, react. rewrite timeout_mounted. simpl. now rewrite app_nil_r.
Qed.

Lemma run_timeout_twice st :
  run [ev_timeout; ev_timeout] (mounted st) = run [ev_timeout] (mounted st).
Proof.
  change [ev_timeout; ev_timeout] with ([ev_timeout] ++ [ev_timeout]).
  rewrite run_app, run_timeout_mounted. simpl. now rewrite app_nil_r.
Qed.

(** X20. Keystrokes that follow one another before the timer fires cause
    nothing by themselves; when the timer fires, one search is made, for
    the last text, with the effects [searchPlaces] has for it; the timer
    does not fire a second time. *)
Theorem burst_then_timeout st (vs : list string) :
  let final := setCoords (default (coords st) (last vs)) st in
  (run (ev_change <$> vs) (mounted st)).2 = [] /\
  (run ((ev_change <$> vs) ++ [ev_timeout]) (mounted st)).2
    = (searchPlaces final).2 /\
  (run ((ev_change <$> vs) ++ [ev_timeout; ev_timeout]) (mounted st))
    = run ((ev_change <$> vs) ++ [ev_timeout]) (mounted st).
Proof.
  intros final. subst final.
  rewrite !run_app, run_changes. cbn [fst snd].
  rewrite run_timeout_twice, run_timeout_mounted. simpl. auto.
Qed.
End Events.

Lemma focus_never_unset_witness :
  let es := [ev_change "x"; ev_show; ev_keyDown "Escape"; ev_timeout;
             ev_delete "1700000000000"; ev_searchResponse None] in
  is_Some (lat (app (run es (mounted session3)).1)) /\
  is_Some (lon (app (run es (mounted session3)).1)).
Proof.
  intros es. apply (focus_never_unset es (mounted session3));
    vm_compute; eexists; reflexivity.
Defined.

Section Search.
Implicit Types (st : AppState) (d : Debounced).




End Search.



(** ** The surface, in general *)

Section SurfaceFurther.
Implicit Types (prev st : AppState) (sf : Surface.t) (bounds : Bbox.t).


(** A position on the globe is a pair of finite numbers. *)
Lemma geographic_finite la lo :
  geographic la lo ->
  la ≠ S754_nan /\ lo ≠ S754_nan /\
  forall neg, la ≠ S754_infinity neg /\ lo ≠ S754_infinity neg.
Proof.
  intros (H1 & H2 & H3 & H4).
  split; [intros ->; vm_compute in H1; discriminate H1|].
  split; [intros ->; vm_compute in H3; discriminate H3|].
  intros [|]; split; intros ->.
  - vm_compute in H1. discriminate H1.
  - vm_compute in H3. discriminate H3.
  - vm_compute in H2. discriminate H2.
  - vm_compute in H4. discriminate H4.
Qed.

(** "Show on Map" takes the input [1,1e400] without an alert, and the
    focus location it sets, with the longitude [Infinity], is not one. *)
Lemma handleShow_sets_infinite_focus :
  (handleShow (setCoords "1,1e400" session0)).2 = [] /\
  lon (handleShow (setCoords "1,1e400" session0)).1
  = Some (S754_infinity false) /\
  ~ drawable (handleShow (setCoords "1,1e400" session0)).1.
Proof.
  split; [vm_compute; reflexivity|]. split; [vm_compute; reflexivity|].
  intros H.
  destruct (H (JS.ofZ 1) (S754_infinity false)) as (_ & _ & _ & H4);
    [vm_compute; reflexivity | vm_compute; reflexivity |].
  vm_compute in H4. discriminate H4.
Qed.

(** The surface after a render that re-runs the map effect, with a focus
    location on the globe. *)
Lemma commit_rerun prev st fresh bounds sf la lo :
  bool_decide (lat prev ≠ lat st) || bool_decide (lon prev ≠ lon st) || fresh
    = true ->
  lat st = Some la -> lon st = Some lo -> geographic la lo ->
  commit prev st fresh bounds sf =
  Surface.mk (Some (Surface.created sf)) (Some (la, lo))
    (visibleCoords bounds (savedCoords st)) (Some (la, lo))
    (S (Surface.created sf))
    (Surface.removed sf ++ option_list (Surface.mapRef sf)).
Proof.
  intros Hm Hla Hlo _. unfold commit. rewrite Hm.
  destruct sf as [[m|] c mk cm cr rm], bounds as [a b c' d];
    unfold initMap_cleanup, initMap, updateCenter, updateMarkers,
      handleMapViewChange; simpl; rewrite Hla, Hlo; simpl;
    destruct fresh; simpl; rewrite ?app_nil_r; reflexivity.
Qed.

(** X25. While a map is shown, every render in which the focus location
    has changed, or the collection is a new array (after a save, a delete
    or a load), removes the map and builds another, when the focus
    location of the render is a position on the globe. *)
Theorem commit_rebuilds_map prev st fresh bounds sf map la lo :
  Surface.mapRef sf = Some map ->
  lat st = Some la -> lon st = Some lo -> geographic la lo ->
  lat prev ≠ lat st \/ lon prev ≠ lon st \/ fresh = true ->
  let sf' := commit prev st fresh bounds sf in
  Surface.mapRef sf' = Some (Surface.created sf) /\
  Surface.created sf' = S (Surface.created sf) /\
  Surface.removed sf' = Surface.removed sf ++ [map].
Proof.
  intros Hmap Hla Hlo Hgeo Hch sf'. subst sf'.
  rewrite (commit_rerun prev st fresh bounds sf la lo);
    [|  |exact Hla|exact Hlo|exact Hgeo].
  - simpl. now rewrite Hmap.
  - destruct Hch as [H|[H| ->]].
    + now rewrite (bool_decide_eq_true_2 _ H).
    + rewrite (bool_decide_eq_true_2 _ H). now rewrite orb_true_r.
    + now rewrite orb_true_r.
Qed.

(** X26. After such a render, with a focus location that is a position
    on the globe, there is a map, it is centered on the focus location,
    the current-location marker stands there, and the markers of saved
    points are exactly those of the points of the collection inside the
    viewport. *)
Theorem commit_draws_visible prev st fresh bounds sf la lo :
  lat prev ≠ lat st \/ lon prev ≠ lon st \/ fresh = true ->
  lat st = Some la -> lon st = Some lo -> geographic la lo ->
  let sf' := commit prev st fresh bounds sf in
  is_Some (Surface.mapRef sf') /\
  Surface.center sf' = Some (la, lo) /\
  Surface.currentLocationMarkerRef sf' = Some (la, lo) /\
  Surface.markersRef sf' = filter (within bounds) (savedCoords st).
Proof.
  intros Hch Hla Hlo Hgeo sf'. subst sf'.
  rewrite (commit_rerun prev st fresh bounds sf la lo);
    [|  |exact Hla|exact Hlo|exact Hgeo].
  - simpl. rewrite visibleCoords_filter. eauto.
  - destruct Hch as [H|[H| ->]].
    + now rewrite (bool_decide_eq_true_2 _ H).
    + rewrite (bool_decide_eq_true_2 _ H). now rewrite orb_true_r.
    + now rewrite orb_true_r.
Qed.

(** X27. As long as no focus location is set no map is built: renders
    caused by a load, a save or a delete leave the empty surface as it
    is. *)
Theorem commit_without_focus prev st fresh bounds sf :
  lat st = None \/ lon st = None ->
  Surface.mapRef sf = None ->
  commit prev st fresh bounds sf = sf /\ mount st bounds sf = sf.
Proof.
  intros Hf Hmap.
  assert (I : initMap st sf = sf).
  { unfold initMap. rewrite Hmap.
    destruct Hf as [-> | ->]; [reflexivity | now destruct (lat st)]. }
  assert (C : initMap_cleanup sf = sf) by (unfold initMap_cleanup; now rewrite Hmap).
  assert (U : updateCenter st bounds sf = sf)
    by (unfold updateCenter; now rewrite Hmap).
  assert (M : updateMarkers st bounds sf = sf)
    by (unfold updateMarkers; now rewrite Hmap).
  split.
  - unfold commit. destruct (_ || _ || _); rewrite ?C, ?I, ?U;
      destruct fresh; now rewrite ?M.
  - unfold mount. now rewrite I, U, M.
Qed.

Lemma commit_accounted prev st fresh bounds sf :
  drawable st -> accounted sf -> accounted (commit prev st fresh bounds sf).
Proof.
  intros _ Ha. unfold commit.
  set (moved := bool_decide _ || bool_decide _ || fresh).
  assert (Hf : fresh = true -> moved = true)
    by (intros ->; subst moved; apply orb_true_r).
  clearbody moved.
  destruct moved, fresh; try (now specialize (Hf eq_refl)); clear Hf;
    try exact Ha;
    unfold accounted, initMap_cleanup, initMap, updateCenter, updateMarkers,
      handleMapViewChange in *;
    destruct sf as [[m|] c mk cm cr rm]; cbn -[seq] in *;
    destruct (lat st), (lon st); cbn -[seq];
    rewrite ?app_nil_r in *; rewrite ?seq_S, ?Ha; reflexivity.
Qed.

Lemma surface_reachable_accounted sf : surface_reachable sf -> accounted sf.
Proof.
  induction 1 as [st bounds _ | sf sf' _ IH Hstep].
  - unfold mount, initMap, updateCenter, updateMarkers, handleMapViewChange,
      accounted.
    destruct (lat st), (lon st), bounds; reflexivity.
  - destruct Hstep as [prev st fresh bounds sf Hst | S V sf].
    + now apply commit_accounted.
    + unfold accounted in *.
      destruct (mapRef_handleMapViewChange S V sf) as (-> & -> & ->).
      exact IH.
Qed.

Lemma commit_bare prev st fresh bounds sf :
  drawable st -> bare sf -> bare (commit prev st fresh bounds sf).
Proof.
  intros _ Hb. unfold commit.
  set (moved := bool_decide _ || bool_decide _ || fresh).
  assert (Hf : fresh = true -> moved = true)
    by (intros ->; subst moved; apply orb_true_r).
  clearbody moved.
  destruct moved, fresh; try (now specialize (Hf eq_refl)); clear Hf;
    try exact Hb;
    unfold bare, initMap_cleanup, initMap, updateCenter, updateMarkers,
      handleMapViewChange in *;
    destruct sf as [[m|] c mk cm cr rm]; simpl in *;
    destruct (lat st), (lon st); simpl; try discriminate; auto.
Qed.

Lemma surface_reachable_bare sf : surface_reachable sf -> bare sf.
Proof.
  induction 1 as [st bounds _ | sf sf' _ IH Hstep].
  - unfold mount, initMap, updateCenter, updateMarkers, handleMapViewChange, bare.
    destruct (lat st), (lon st); simpl; try discriminate; auto.
  - destruct Hstep as [prev st fresh bounds sf Hst | S V sf].
    + now apply commit_bare.
    + unfold bare, handleMapViewChange in *.
      destruct (Surface.mapRef sf) eqn:E; [discriminate|].
      intros _. apply IH. reflexivity.
Qed.

(** X28. No map is lost as long as every focus location the component
    is rendered with is a position on the globe: at any time the maps
    built so far are the ones removed, each once and in the order they
    were built, followed by the live one if there is one; without a map
    nothing is drawn; after teardown all the maps have been removed and
    the refs are empty, and a second teardown does nothing. *)
Theorem surface_accounted sf :
  surface_reachable sf ->
  accounted sf /\ bare sf /\
  Surface.removed (unmount sf) = seq 0 (Surface.created sf) /\
  Surface.mapRef (unmount sf) = None /\
  Surface.markersRef (unmount sf) = [] /\
  Surface.currentLocationMarkerRef (unmount sf) = None /\
  unmount (unmount sf) = unmount sf.
Proof.
  intros Hr. pose proof (surface_reachable_accounted sf Hr) as Ha.
  pose proof (surface_reachable_bare sf Hr) as Hb.
  split; [exact Ha|]. split; [exact Hb|].
  unfold accounted, bare in *. unfold unmount, initMap_cleanup.
  destruct sf as [[m|] c mk cm cr rm]; cbn -[seq] in *.
  - repeat split; auto.
  - rewrite app_nil_r in Ha. destruct (Hb eq_refl) as (_ & -> & ->).
    repeat split; auto.
Qed.
End SurfaceFurther.

Lemma commit_rebuilds_map_witness :
  let sf' := commit session2 session3 true someBounds surface2 in
  Surface.mapRef sf' = Some (Surface.created surface2) /\
  Surface.created sf' = S (Surface.created surface2) /\
  Surface.removed sf' = Surface.removed surface2 ++ [0%nat].
Proof.
  apply (commit_rebuilds_map session2 session3 true someBounds surface2 0
           (JS.ofZ 1) (JS.ofZ 2)).
  - vm_compute. reflexivity.
  - vm_compute. reflexivity.
  - vm_compute. reflexivity.
  - vm_compute. repeat split; reflexivity.
  - right. right. reflexivity.
Defined.

Lemma commit_draws_visible_witness :
  let sf' := commit session2 session3 true someBounds surface2 in
  is_Some (Surface.mapRef sf') /\
  Surface.center sf' = Some (JS.ofZ 1, JS.ofZ 2) /\
  Surface.currentLocationMarkerRef sf' = Some (JS.ofZ 1, JS.ofZ 2) /\
  Surface.markersRef sf' = filter (within someBounds) (savedCoords session3).
Proof.
  apply (commit_draws_visible session2 session3 true someBounds surface2
           (JS.ofZ 1) (JS.ofZ 2)).
  - right. right. reflexivity.
  - vm_compute. reflexivity.
  - vm_compute. reflexivity.
  - vm_compute. repeat split; reflexivity.
Defined.

Lemma commit_without_focus_witness :
  commit session0 bundled true someBounds surface0 = surface0 /\
  mount bundled someBounds surface0 = surface0.
Proof.
  apply (commit_without_focus session0 bundled true someBounds surface0).
  - left. vm_compute. reflexivity.
  - vm_compute. reflexivity.
Defined.

(** The focus locations of the session, [1,2] and then [3,4], are
    positions on the globe. *)
Lemma session_drawable :
  drawable session0 /\ drawable session1 /\ drawable session2 /\
  drawable session2' /\ drawable session2''.
Proof.
  split; [|split; [|split; [|split]]]; intros la lo Hla Hlo;
    vm_compute in Hla, Hlo; try discriminate Hla;
    injection Hla as <-; injection Hlo as <-;
    vm_compute; repeat split; reflexivity.
Defined.

Lemma surface2''_reachable : surface_reachable surface2''.
Proof.
  destruct session_drawable as (D0 & D1 & D2 & D2' & D2'').
  apply (surface_next surface2'); [|now apply surface_commit].
  apply (surface_next surface2); [|now apply surface_commit].
  apply (surface_next surface1); [|now apply surface_commit].
  apply (surface_next surface0); [|now apply surface_commit].
  now apply surface_mounted.
Defined.

Lemma surface_accounted_witness :
  Surface.removed (unmount surface2'') = seq 0 (Surface.created surface2'') /\
  Surface.created surface2'' = 2%nat.
Proof.
  split; [|vm_compute; reflexivity].
  exact (proj1 (proj2 (proj2 (surface_accounted surface2'' surface2''_reachable)))).
Defined.

Lemma timer_holds_current_text_witness :
  "hai" = coords (app (run [ev_change "ha"; ev_change "hai"] (mounted session0)).1).
Proof.
  apply (timer_holds_current_text session0 [ev_change "ha"; ev_change "hai"] "hai").
  vm_compute. reflexivity.
Defined.
